(** * Fréchet ChemNet Distance pipeline: tokenizer, batch feeder, distance

    Shallow embedding of
    [model/framework/mollib/virtual_libraries/src/python/fcd/FCD.py].

    - Python [str] is [string]; indexing [s[i]] is [String.get], which is
      [None] where Python raises [IndexError]; slicing [s[i:i+2]] is
      [substring i 2 s], which clips like Python does.
    - numpy [float64] is Rocq's primitive binary64 [float].
    - A 2-D numpy array is a list of rows; item assignment is stdpp's list
      insert behind an explicit bounds check, because numpy raises
      [IndexError] out of range where the list insert would do nothing.
    - Python exceptions are values of [exn]; a computation returns
      [result A]. *)

From Stdlib Require Import ZArith String Ascii List Lia Floats.
From stdpp Require Import base list strings.

Local Open Scope string_scope.
Local Open Scope list_scope.
Local Open Scope Z_scope.

(** ** Exceptions and results *)

Inductive exn : Type :=
| IndexError
| UnboundLocalError (var : string)
| AssertionError (msg : string)
| ValueError (msg : string) (arg : option float)
| ZeroDivisionError.

(** [OutOfFuel] is not a Python outcome: it stands for a loop that has not
    come to an end.  The bounded unrolling of the tokenizer's [while] loop
    never answers it ([get_one_hot_total]); the consumer of the batch
    generator answers it when the generator spins without yielding. *)
Inductive result (A : Type) : Type :=
| Ok (a : A)
| Raise (e : exn)
| OutOfFuel.

Arguments Ok {A} a.
Arguments Raise {A} e.
Arguments OutOfFuel {A}.

(** Sequencing: the first exception aborts what follows.  With these two
    instances stdpp's [x ← r; k] reads as a Python statement sequence. *)
#[global] Instance result_bind : MBind result := fun A B k r =>
  match r with
  | Ok a => k a
  | Raise e => Raise e
  | OutOfFuel => OutOfFuel
  end.

#[global] Instance result_ret : MRet result := fun A a => Ok a.

Definition is_ok {A : Type} (r : result A) : bool :=
  match r with Ok _ => true | _ => false end.

(** ** Tokenizer / encoder: [get_one_hot] (FCD.py, lines 124-190) *)

(** The vocabulary, in the order of the source (lines 125-161). *)
Definition one_hot : list string :=
  [ "C"; "N"; "O"; "H"; "F"; "Cl"; "P"; "B"; "Br"; "S"; "I"; "Si"; "#"; "(";
    ")"; "+"; "-"; "1"; "2"; "3"; "4"; "5"; "6"; "7"; "8"; "="; "["; "]";
    "@"; "c"; "n"; "o"; "s"; "X"; "." ].

(** [sym in one_hot] *)
Definition contains (sym : string) (l : list string) : bool :=
  existsb (String.eqb sym) l.

(** [one_hot.index(sym)]: position of the first occurrence, [ValueError]
    when there is none. *)
Fixpoint index_from (sym : string) (l : list string) (k : nat) : result nat :=
  match l with
  | [] => Raise (ValueError "is not in list" None)
  | x :: l' => if String.eqb sym x then Ok k else index_from sym l' (S k)
  end.

Definition index (sym : string) (l : list string) : result nat :=
  index_from sym l 0.

(** A tensor is a list of rows of [float64] cells. *)
Abbreviation tensor := (list (list float)).

(** [np.zeros((rows, cols))] *)
Definition zeros (rows cols : nat) : tensor :=
  replicate rows (replicate cols 0%float).

(** [vec[j, k] = 1] with [j], [k] non-negative: numpy raises [IndexError]
    when an index is outside the array. *)
Definition setitem (vec : tensor) (j k : nat) : result tensor :=
  match vec !! j with
  | None => Raise IndexError
  | Some row =>
      if (k <? length row)%nat
      then Ok (<[j := <[k := 1%float]> row]> vec)
      else Raise IndexError
  end.

(** [c in ["r", "i", "l"]] (line 174) *)
Definition second_letter (c : ascii) : bool :=
  (Ascii.eqb c "r" || Ascii.eqb c "i" || Ascii.eqb c "l")%bool.

(** The [try] block, lines 173-181.  The local variables it may assign are
    [i] and [sym]; [sym] is [None] while Python has not bound it yet.  Any
    exception of the body is swallowed by the bare [except], which prints a
    message and leaves both variables as they were. *)
Definition try_block (smiles : string) (i : nat) (sym : option string)
  : nat * option string :=
  match String.get (i + 1) smiles with
  | None => (i, sym)
  | Some c =>
      if second_letter c
      then ((i + 2)%nat, Some (substring i 2 smiles))
      else match String.get i smiles with
           | None => (i, sym)
           | Some d => ((i + 1)%nat, Some (String d EmptyString))
           end
  end.

(** Lines 182-185: the column set in row [j]. *)
Definition column_of (sym : string) : result nat :=
  if contains sym one_hot then index sym one_hot else index "X" one_hot.

(** The stop test of line 187,
    [smiles[i] == "." or j >= (pad_len - 1) and pad_len > 0];
    the string is indexed first, and [and] binds tighter than [or]. *)
Definition stop_test (smiles : string) (i j : nat) (pad_len : Z) : result bool :=
  match String.get i smiles with
  | None => Raise IndexError
  | Some c =>
      Ok (Ascii.eqb c "." || ((Z.of_nat j >=? pad_len - 1) && (pad_len >? 0)))%bool
  end.

(** The [while cont] loop, lines 171-189, unrolled at most [fuel] times. *)
Fixpoint scan (fuel : nat) (smiles : string) (pad_len : Z)
    (i j : nat) (sym : option string) (vec : tensor) : result tensor :=
  match fuel with
  | O => OutOfFuel
  | S fuel' =>
      let '(i1, sym1) := try_block smiles i sym in
      match sym1 with
      | None => Raise (UnboundLocalError "sym")
      | Some s =>
          k ← column_of s;
          vec1 ← setitem vec j k;
          let j1 := S j in
          stop ← stop_test smiles i1 j1 pad_len;
          if stop : bool
          then (kdot ← index "." one_hot; setitem vec1 j1 kdot)
          else scan fuel' smiles pad_len i1 j1 sym1 vec1
      end
  end.

(** Number of rows allocated at lines 164-167. *)
Definition rows_of (smiles : string) (pad_len : Z) : nat :=
  if pad_len <? 0 then String.length smiles else Z.to_nat pad_len.

(** [get_one_hot(smiles, pad_len)].  Every iteration writes one more row, so
    the loop cannot run more often than there are rows, plus the one
    iteration that fails on the row after the last. *)
Definition get_one_hot (smiles : string) (pad_len : Z) : result tensor :=
  let smiles := smiles +:+ "." in
  let rows := rows_of smiles pad_len in
  scan (S rows) smiles pad_len 0 0 None (zeros rows (length one_hot)).

(** Row [r] is a terminator row when its ['.'] column holds 1. *)
Definition is_terminator_row (row : list float) : bool :=
  match row !! 34%nat with
  | Some x => PrimFloat.eqb x 1%float
  | None => false
  end.

Definition terminator_rows (vec : tensor) : nat :=
  length (List.filter is_terminator_row vec).

(** The tokens of a tensor, read back row by row: the column that holds 1. *)
Definition hot_columns (row : list float) : list nat :=
  map fst (List.filter (fun p => PrimFloat.eqb (snd p) 1%float)
             (imap (fun k x => (k, x)) row)).

Definition decode_row (row : list float) : option string :=
  match hot_columns row with
  | [k] => one_hot !! k
  | _ => None
  end.

Definition zero_row : list float := replicate 35 0%float.

(** Room left before an iteration that writes row [j], for a string whose
    sentinel is at index [n] and a tensor of [rows] rows: without padding the
    row index never overtakes the string index; with padding the loop has
    not reached row [pad_len - 1] yet. *)
Definition room (n : nat) (pad_len : Z) (rows : nat) (i j : nat) : Prop :=
  (pad_len < 0 /\ rows = S n /\ (j <= i)%nat)
  \/ (0 < pad_len /\ rows = Z.to_nat pad_len /\ Z.of_nat j < pad_len - 1).

(** Rows [j], [j+1], ... are still as [np.zeros] made them. *)
Definition blank_from (rows : nat) (j : nat) (vec : tensor) : Prop :=
  length vec = rows
  /\ forall r row, vec !! r = Some row -> (j <= r)%nat -> row = zero_row.

Definition no_terminator_below (j : nat) (vec : tensor) : Prop :=
  forall r row, vec !! r = Some row -> (r < j)%nat ->
                is_terminator_row row = false.

(** ** Fréchet distance: [calculate_frechet_distance] (FCD.py, lines 26-87)

    A mean vector is a 1-D array, a covariance matrix a 2-D array with its
    shape, so [np.atleast_1d] and [np.atleast_2d] (lines 52-56) return their
    argument.  A [complex128] cell is the pair of its real and imaginary
    part.  The function is modelled twice.  In [calculate_frechet_distance]
    arrays are plain values.  In [calculate_frechet_distance_store] they are
    objects of a store that the function reads and allocates in, the caller's
    arrays among them; [store_run] shows that the two agree. *)

Record ndarray (A : Type) : Type :=
  NdArray { shape : nat * nat; cells : list (list A) }.

Arguments NdArray {A} shape cells.
Arguments shape {A} n.
Arguments cells {A} n.

Abbreviation vector := (list float).
Abbreviation matrix := (ndarray float).
Abbreviation cmatrix := (ndarray (float * float)).

(** What [linalg.sqrtm] hands back: a real or a complex array. *)
Inductive array2 : Type :=
| RealArray (a : matrix)
| ComplexArray (a : cmatrix).

(** Sums run left to right from 0.  That is the order of numpy's
    reduction for fewer than 8 terms; from 8 terms on numpy adds pairwise,
    and [dot] leaves the order to BLAS, so for arrays that large the last
    bits of [trace], [vdot] and [mdot] may differ from the library's. *)
Definition fsum (l : list float) : float := fold_left PrimFloat.add l 0%float.

(** [a.dot(b)] for 1-D arrays of one length. *)
Definition vdot (a b : vector) : float := fsum (zip_with PrimFloat.mul a b).

Definition column (j : nat) (b : matrix) : vector :=
  map (fun row => default 0%float (row !! j)) (cells b).

(** [a.dot(b)] for 2-D arrays: [ValueError] unless the inner dimensions agree. *)
Definition mdot (a b : matrix) : result matrix :=
  if Nat.eqb (snd (shape a)) (fst (shape b))
  then Ok (NdArray (fst (shape a), snd (shape b))
             (map (fun row => map (fun j => vdot row (column j b))
                                (seq 0 (snd (shape b))))
                (cells a)))
  else Raise (ValueError "shapes not aligned" None).

(** [np.eye(n)] *)
Definition eye (n : nat) : matrix :=
  NdArray (n, n)
    (map (fun i => map (fun j => if Nat.eqb i j then 1%float else 0%float)
                     (seq 0 n))
       (seq 0 n)).

(** [m * x] for a scalar [x] *)
Definition mscale (m : matrix) (x : float) : matrix :=
  NdArray (shape m) (map (map (fun c => PrimFloat.mul c x)) (cells m)).

(** [a + b] for arrays of one shape.  Where it is called (line 76) the
    shapes agree, see [regularized_shapes]; numpy's broadcasting of unequal
    shapes is not modelled. *)
Definition madd (a b : matrix) : result matrix :=
  if bool_decide (shape a = shape b)
  then Ok (NdArray (shape a) (zip_with (zip_with PrimFloat.add) (cells a) (cells b)))
  else Raise (ValueError "operands could not be broadcast together" None).

(** [np.diagonal]: cell [i] of row [i], as long as there is one. *)
Fixpoint diagonal_from {A : Type} (i : nat) (rows : list (list A)) : list A :=
  match rows with
  | [] => []
  | row :: rows' =>
      match row !! i with
      | Some x => x :: diagonal_from (S i) rows'
      | None => []
      end
  end.

Definition diagonal {A : Type} (m : ndarray A) : list A :=
  diagonal_from 0 (cells m).

(** [np.trace] *)
Definition trace (m : matrix) : float := fsum (diagonal m).

(** [np.isfinite(covmean).all()] *)
Definition isfinite_all (a : array2) : bool :=
  match a with
  | RealArray m => forallb (forallb is_finite) (cells m)
  | ComplexArray m =>
      forallb (forallb (fun c => is_finite (fst c) && is_finite (snd c))) (cells m)
  end.

(** [np.isclose(x, y, rtol, atol)] on one cell: within tolerance when both
    are finite, equal otherwise. *)
Definition isclose (rtol atol x y : float) : bool :=
  if is_finite x && is_finite y
  then PrimFloat.leb (abs (x - y)) (atol + rtol * abs y)%float
  else PrimFloat.eqb x y.

(** 1e-5, the default [rtol] of [np.allclose], and 1e-3, the [atol] of line 80 *)
Definition rtol_default : float := 0x1.4f8b588e368f1p-17%float.
Definition atol_imag : float := 0x1.0624dd2f1a9fcp-10%float.
(** 1e-6, the default [eps] *)
Definition eps_default : float := 0x1.0c6f7a0b5ed8dp-20%float.

(** [np.allclose(l, 0, atol=1e-3)] *)
Definition allclose_zero (l : list float) : bool :=
  forallb (fun x => isclose rtol_default atol_imag x 0%float) l.

(** [np.maximum], which hands a NaN on *)
Definition fmax (a b : float) : float :=
  if is_nan a then a else if is_nan b then b
  else if PrimFloat.ltb a b then b else a.

(** [np.max] of the cells of an array: [ValueError] on an empty one. *)
Definition np_max (l : list float) : result float :=
  match l with
  | [] => Raise (ValueError "zero-size array to reduction operation maximum" None)
  | x :: l' => Ok (fold_left fmax l' x)
  end.

Definition imag_diagonal (c : cmatrix) : list float := map snd (diagonal c).
Definition abs_imag (c : cmatrix) : list float :=
  map (fun z => abs (snd z)) (concat (cells c)).
Definition real (c : cmatrix) : matrix :=
  NdArray (shape c) (map (map fst) (cells c)).

(** *** Effects: the numerical stages and the warning, in order *)

Inductive event : Type :=
| EvSub (a b : vector)              (* mu1 - mu2 *)
| EvDot (a b : matrix)              (* a.dot(b) *)
| EvSqrtm (a : matrix)              (* linalg.sqrtm(a) *)
| EvWarn (msg : string) (eps : float).  (* warnings.warn(msg % eps) *)

(** A computation extends the log of events and ends in a [result]. *)
Definition M (A : Type) : Type := list event -> result A * list event.

#[global] Instance M_ret : MRet M := fun A a log => (Ok a, log).

#[global] Instance M_bind : MBind M := fun A B k m log =>
  match m log with
  | (Ok a, log') => k a log'
  | (Raise e, log') => (Raise e, log')
  | (OutOfFuel, log') => (OutOfFuel, log')
  end.

Definition emit (e : event) : M unit := fun log => (Ok tt, log ++ [e]).
Definition lift {A : Type} (r : result A) : M A := fun log => (r, log).

(** [assert cond, msg] *)
Definition py_assert (cond : bool) (msg : string) : M unit :=
  if cond then mret tt else lift (Raise (AssertionError msg)).

Definition mean_msg : string := "Training and test mean vectors have different lengths".
Definition cov_msg : string := "Training and test covariances have different dimensions".
Definition singular_msg : string :=
  "fid calculation produces singular product; adding %s to diagonal of cov estimates".
Definition imaginary_msg : string := "Imaginary component {}".

(** Lines 79-83: a complex [covmean] loses its imaginary part when the
    imaginary part of its diagonal is close to 0, and is an error otherwise. *)
Definition real_part (covmean : array2) : result matrix :=
  match covmean with
  | RealArray a => Ok a
  | ComplexArray c =>
      if negb (allclose_zero (imag_diagonal c))
      then m ← np_max (abs_imag c); Raise (ValueError imaginary_msg (Some m))
      else Ok (real c)
  end.

Section Frechet.
(** [scipy.linalg.sqrtm] is no code of this repository: it is a parameter. *)
Variable sqrtm : matrix -> result array2.

Definition np_sub (a b : vector) : M vector :=
  _ ← emit (EvSub a b); mret (zip_with PrimFloat.sub a b).

Definition np_dot (a b : matrix) : M matrix :=
  _ ← emit (EvDot a b); lift (mdot a b).

Definition linalg_sqrtm (a : matrix) : M array2 :=
  _ ← emit (EvSqrtm a); lift (sqrtm a).

(** Lines 75-76 *)
Definition regularized_covmean (sigma1 sigma2 : matrix) (eps : float) : M array2 :=
  let offset := mscale (eye (fst (shape sigma1))) eps in
  s1 ← lift (madd sigma1 offset);
  s2 ← lift (madd sigma2 offset);
  prod ← np_dot s1 s2;
  linalg_sqrtm prod.

(** Lines 68-76 *)
Definition covmean_of (sigma1 sigma2 : matrix) (eps : float) : M array2 :=
  prod ← np_dot sigma1 sigma2;
  covmean ← linalg_sqrtm prod;
  if negb (isfinite_all covmean)
  then _ ← emit (EvWarn singular_msg eps); regularized_covmean sigma1 sigma2 eps
  else mret covmean.

Definition calculate_frechet_distance
    (mu1 : vector) (sigma1 : matrix) (mu2 : vector) (sigma2 : matrix)
    (eps : float) : M float :=
  _ ← py_assert (bool_decide (length mu1 = length mu2)) mean_msg;
  _ ← py_assert (bool_decide (shape sigma1 = shape sigma2)) cov_msg;
  diff ← np_sub mu1 mu2;
  covmean ← covmean_of sigma1 sigma2 eps;
  covmean ← lift (real_part covmean);
  let tr_covmean := trace covmean in
  mret (vdot diff diff + trace sigma1 + trace sigma2 - 2 * tr_covmean)%float.
End Frechet.

(** The value of line 87 for a real [covmean]. *)
Definition distance_value (mu1 : vector) (sigma1 : matrix) (mu2 : vector)
    (sigma2 : matrix) (covmean : matrix) : float :=
  let diff := zip_with PrimFloat.sub mu1 mu2 in
  (vdot diff diff + trace sigma1 + trace sigma2 - 2 * trace covmean)%float.

(** [np.eye(sigma1.shape[0]) * eps] *)
Definition offset_of (sigma1 : matrix) (eps : float) : matrix :=
  mscale (eye (fst (shape sigma1))) eps.

(** *** The arrays as objects of a store

    A Python name holds a reference.  [np.atleast_1d] and [np.atleast_2d]
    (lines 52-56) hand back the very array they are given when it has the
    dimensions, so inside the function [sigma1] and [sigma2] are the caller's
    arrays: an in-place operation on them would be seen by the caller.  The
    store is the list of the objects alive; an address is an index into it
    and a new array goes at its end.  [-], [+], [*], [dot], [np.eye] and
    [linalg.sqrtm] return new arrays; [covmean.real] is a view, an object
    that shares the cells of the complex array it is taken from.
    [linalg.sqrtm] is taken not to write to its argument. *)
Definition addr := nat.

Inductive object : Type :=
| Vec (v : vector)             (* a 1-D array *)
| Arr (a : array2)             (* a 2-D array, real or complex *)
| RealView (base : addr).      (* [a.real] for the complex array at [base] *)

Abbreviation store := (list object).

(** A computation on the store: [None] when an address holds no array of
    the kind that is read, which no Python reference does. *)
Definition H (A : Type) : Type :=
  store -> list event -> option (result A * store * list event).

#[global] Instance H_ret : MRet H := fun A a h log => Some (Ok a, h, log).

#[global] Instance H_bind : MBind H := fun A B k m h log =>
  match m h log with
  | Some (Ok a, h', log') => k a h' log'
  | Some (Raise e, h', log') => Some (Raise e, h', log')
  | Some (OutOfFuel, h', log') => Some (OutOfFuel, h', log')
  | None => None
  end.

Definition alloc (o : object) : H addr :=
  fun h log => Some (Ok (length h), h ++ [o], log).

Definition load_vector (a : addr) : H vector := fun h log =>
  match h !! a with
  | Some (Vec v) => Some (Ok v, h, log)
  | _ => None
  end.

(** Reading through a view reads the cells of its base. *)
Definition load_array (a : addr) : H array2 := fun h log =>
  match h !! a with
  | Some (Arr x) => Some (Ok x, h, log)
  | Some (RealView base) =>
      match h !! base with
      | Some (Arr (ComplexArray z)) => Some (Ok (RealArray (real z)), h, log)
      | _ => None
      end
  | _ => None
  end.

Definition load_matrix (a : addr) : H matrix := fun h log =>
  match load_array a h log with
  | Some (Ok (RealArray m), h', log') => Some (Ok m, h', log')
  | _ => None
  end.

(** [a += b] on 2-D arrays writes the sum into the cells of [a].  The
    function does not use it: line 76 has [sigma1 + offset], a new array. *)
Definition st_iadd (a b : addr) : H unit := fun h log =>
  match load_matrix a h log, load_matrix b h log with
  | Some (Ok x, _, _), Some (Ok y, _, _) =>
      match madd x y with
      | Ok s => Some (Ok tt, <[a := Arr (RealArray s)]> h, log)
      | Raise e => Some (Raise e, h, log)
      | OutOfFuel => Some (OutOfFuel, h, log)
      end
  | _, _ => None
  end.

Definition st_emit (e : event) : H unit :=
  fun h log => Some (Ok tt, h, log ++ [e]).
Definition st_lift {A : Type} (r : result A) : H A :=
  fun h log => Some (r, h, log).

Definition st_assert (cond : bool) (msg : string) : H unit :=
  if cond then mret tt else st_lift (Raise (AssertionError msg)).

Section FrechetStore.
Variable sqrtm : matrix -> result array2.

(** [a - b] on 1-D arrays *)
Definition st_sub (a b : addr) : H addr :=
  x ← load_vector a; y ← load_vector b;
  _ ← st_emit (EvSub x y);
  alloc (Vec (zip_with PrimFloat.sub x y)).

(** [a.dot(b)] *)
Definition st_dot (a b : addr) : H addr :=
  x ← load_matrix a; y ← load_matrix b;
  _ ← st_emit (EvDot x y);
  p ← st_lift (mdot x y);
  alloc (Arr (RealArray p)).

(** [linalg.sqrtm(a)] *)
Definition st_sqrtm (a : addr) : H addr :=
  x ← load_matrix a;
  _ ← st_emit (EvSqrtm x);
  r ← st_lift (sqrtm x);
  alloc (Arr r).

(** [a * x] for a scalar [x] *)
Definition st_scale (a : addr) (x : float) : H addr :=
  m ← load_matrix a; alloc (Arr (RealArray (mscale m x))).

(** [a + b] *)
Definition st_add (a b : addr) : H addr :=
  x ← load_matrix a; y ← load_matrix b;
  s ← st_lift (madd x y);
  alloc (Arr (RealArray s)).

(** Lines 58-87 on the addresses of the four arrays. *)
Definition calculate_frechet_distance_store
    (mu1 sigma1 mu2 sigma2 : addr) (eps : float) : H float :=
  m1 ← load_vector mu1; m2 ← load_vector mu2;
  _ ← st_assert (bool_decide (length m1 = length m2)) mean_msg;
  s1 ← load_matrix sigma1; s2 ← load_matrix sigma2;
  _ ← st_assert (bool_decide (shape s1 = shape s2)) cov_msg;
  diff ← st_sub mu1 mu2;
  prod ← st_dot sigma1 sigma2;
  covmean ← st_sqrtm prod;
  root ← load_array covmean;
  covmean ← (if negb (isfinite_all root)
             then _ ← st_emit (EvWarn singular_msg eps);
                  s1 ← load_matrix sigma1;
                  e ← alloc (Arr (RealArray (eye (fst (shape s1)))));
                  offset ← st_scale e eps;
                  a ← st_add sigma1 offset;
                  b ← st_add sigma2 offset;
                  prod ← st_dot a b;
                  st_sqrtm prod
             else mret covmean);
  root ← load_array covmean;
  covmean ← (match root with
             | ComplexArray z =>
                 if negb (allclose_zero (imag_diagonal z))
                 then m ← st_lift (np_max (abs_imag z));
                      st_lift (Raise (ValueError imaginary_msg (Some m)))
                 else alloc (RealView covmean)
             | RealArray _ => mret covmean
             end);
  c ← load_matrix covmean;
  let tr_covmean := trace c in
  d ← load_vector diff;
  s1 ← load_matrix sigma1;
  s2 ← load_matrix sigma2;
  mret (vdot d d + trace s1 + trace s2 - 2 * tr_covmean)%float.
End FrechetStore.

(** A computation that leaves every object of the store it starts from as
    it is, and only adds objects. *)
Definition extends {A : Type} (m : H A) : Prop :=
  forall h log r h' log',
    m h log = Some (r, h', log') -> exists news, h' = h ++ news.

(** *** Worked inputs

    [sqrtm] is a parameter of the function.  To run the function on
    concrete arrays the examples instantiate it with the recurrence for the
    square root of an upper-triangular matrix, on the 3x3 matrices
    [[d, t, 0], [0, d, 0], [0, 0, e]] only: the roots of [d] and [e] on
    the diagonal and [t / (2 sqrt d)] beside it, complex as soon as [d] or
    [e] is negative.  Where [d = 0] the recurrence divides by 0: the entry
    is 0 when [t = 0] too, and otherwise there is no root and the answer is
    an array of NaN.  It is an instance to compute with, not a model of
    the library routine on other matrices. *)
Definition csqrt (x : float) : float * float :=
  if PrimFloat.ltb x 0 then (0, PrimFloat.sqrt (- x))%float
  else (PrimFloat.sqrt x, 0%float).

(** [t / (r + r)] for a real [t] and a real or imaginary [r] *)
Definition half_quotient (t : float) (r : float * float) : float * float :=
  if PrimFloat.eqb (snd r) 0 then (t / (fst r + fst r), 0)%float
  else (0, - (t / (snd r + snd r)))%float.

Definition sqrtm_triangular (a : matrix) : result array2 :=
  match cells a with
  | [[d; t; u]; [l1; d'; v]; [l2; l3; e]] =>
      if negb (PrimFloat.eqb d' d
               && forallb (fun c => PrimFloat.eqb c 0) [u; v; l1; l2; l3])
      then Raise (ValueError "not of the form of the examples" None)
      else if PrimFloat.eqb d 0 && negb (PrimFloat.eqb t 0)
      then Ok (RealArray (NdArray (3, 3)%nat (replicate 3 (replicate 3 nan))))
      else
        let z := (0, 0)%float in
        let beside := if PrimFloat.eqb d 0 then z
                      else half_quotient t (csqrt d) in
        let root := NdArray (3, 3)%nat
                      [[csqrt d; beside; z];
                       [z; csqrt d; z];
                       [z; z; csqrt e]] in
        if PrimFloat.ltb d 0 || PrimFloat.ltb e 0
        then Ok (ComplexArray root)
        else Ok (RealArray (real root))
  | _ => Raise (ValueError "not of the form of the examples" None)
  end.

Definition mu_zero : vector := [0; 0; 0]%float.

(** A nilpotent block beside the entry [e]: the product with the identity
    is singular and has no square root. *)
Definition sigma_nilpotent (e : float) : matrix :=
  NdArray (3, 3)%nat [[0; 1; 0]; [0; 0; 0]; [0; 0; e]]%float.

Definition sigma_diag (e : float) : matrix :=
  NdArray (3, 3)%nat [[1; 0; 0]; [0; 1; 0]; [0; 0; e]]%float.

(** ** Batch feeder and embedding extractor (FCD.py, lines 193-228) *)

(** A batch is a 3-D tensor: one encoded molecule per entry. *)
Abbreviation batch := (list (list (list float))).

(** [int(np.ceil(num_smls / batch_size))], with Python 3 division. *)
Definition num_batches (num_smls batch_size : nat) : result nat :=
  if Nat.eqb batch_size 0 then Raise ZeroDivisionError
  else Ok ((num_smls + batch_size - 1) / batch_size)%nat.

(** [idx_samples[a : b]] for [idx_samples = np.arange(n)]: a slice clips
    its bounds to the array. *)
Definition arange_slice (n a b : nat) : list nat :=
  seq (Nat.min a n) (Nat.min b n - Nat.min a n).

(** [np.asarray(x)] for a list of 2-D arrays of 35 columns: [ValueError]
    unless they all have the same number of rows (with a negative
    [pad_len] the encodings of molecules of different lengths do not). *)
Definition np_asarray (x : list tensor) : result batch :=
  match x with
  | [] => Ok []
  | t :: _ =>
      if forallb (fun u => Nat.eqb (length u) (length t)) x then Ok x
      else Raise (ValueError "inhomogeneous shape" None)
  end.

(** Lines 200-205, the body of the [for] loop for one [j]: the batch that
    is yielded. *)
Definition make_batch (smiles_list : list string) (batch_size : nat)
    (pad_len : Z) (j : nat) : result batch :=
  let num_smls := length smiles_list in
  let idx := arange_slice num_smls (j * batch_size)
               (Nat.min ((j + 1) * batch_size) num_smls) in
  x ← mapM (fun k => match smiles_list !! k with
                     | Some smiles => get_one_hot smiles pad_len
                     | None => Raise IndexError
                     end) idx;
  x ← np_asarray x;
  Ok (map (map (map (fun c => c / 35)%float)) x).

(** What resuming a generator gives: a value and the state to resume from,
    an exception, or no answer at all. *)
Inductive pull (A : Type) : Type :=
| Yield (a : A) (next : nat)
| Throw (e : exn)
| Diverge.

Arguments Yield {A} a next.
Arguments Throw {A} e.
Arguments Diverge {A}.

(** [predict_my_generator], suspended before iteration [j] of its [for]
    loop, is resumed.  When the [for] loop is over, [while 1] starts it
    again; a pass over no batch at all yields nothing and spins for ever. *)
Definition predict_my_generator (smiles_list : list string) (batch_size : nat)
    (pad_len : Z) (j : nat) : pull batch :=
  match num_batches (length smiles_list) batch_size with
  | Ok nb =>
      let j' := if (j <? nb)%nat then j else 0%nat in
      if Nat.eqb nb 0 then Diverge
      else match make_batch smiles_list batch_size pad_len j' with
           | Ok x => Yield x (S j')
           | Raise e => Throw e
           | OutOfFuel => Diverge
           end
  | Raise e => Throw e
  | OutOfFuel => Diverge
  end.

(** Modelled from the spec: the loop of Keras' [predict_generator], which
    is no code of this repository.  Section 4.3 has the extractor drive the
    feeder "exactly that many steps": [steps] pulls, in order, the first
    exception ending the run. *)
Fixpoint drive (gen : nat -> pull batch) (steps : nat) (j : nat)
  : result (list batch) :=
  match steps with
  | O => Ok []
  | S steps' =>
      match gen j with
      | Yield x j' => xs ← drive gen steps' j'; Ok (x :: xs)
      | Throw e => Raise e
      | Diverge => OutOfFuel
      end
  end.

Section Extractor.
(** Modelled from the spec: the embedding model, which is no code of this
    repository.  Section 6 gives it as [predict_batch], from a batch to its
    embeddings. *)
Variable embedding : Type.
Variable predict_on_batch : batch -> list embedding.

(** Modelled from the spec: Keras' [model.predict_generator(generator,
    steps)], which is no code of this repository.  Section 4.3 has it
    collect the model's outputs "across exactly those steps". *)
Definition predict_generator (gen : nat -> pull batch) (steps : nat)
  : result (list embedding) :=
  xs ← drive gen steps 0; Ok (concat (map predict_on_batch xs)).

(** [get_predictions(gen_mol)], lines 226-228; loading the model and
    popping its last two layers (lines 209-224) set up the model that
    [predict_on_batch] stands for.  [pad_len] is the default 350 of
    [predict_my_generator]. *)
Definition get_predictions (gen_mol : list string) : result (list embedding) :=
  steps ← num_batches (length gen_mol) 128;
  predict_generator (predict_my_generator gen_mol 128 350) steps.
End Extractor.

(** The feeder steps [get_predictions] consumes. *)
Definition feeder_steps (gen_mol : list string) : result (list batch) :=
  steps ← num_batches (length gen_mol) 128;
  drive (predict_my_generator gen_mol 128 350) steps 0.

(** The batch row of one molecule: its encoding divided by 35. *)
Definition encoded (smiles : string) : list (list float) :=
  match get_one_hot smiles 350 with
  | Ok vec => map (map (fun c => c / 35)%float) vec
  | _ => []
  end.

(** ** The tokens of a scan

    Row [k] of the vocabulary as a tensor row, the column lines 182-185
    choose for a symbol, and the vocabulary entry that column stands for. *)
Definition hot_row (k : nat) : list float := <[k := 1%float]> zero_row.

Definition column_index (sym : string) : nat :=
  match column_of sym with Ok k => k | _ => 33%nat end.

Definition known (sym : string) : string :=
  if contains sym one_hot then sym else "X".

(** The symbols the loop of lines 171-189 writes, in order: the loop
    without its tensor. *)
Fixpoint tokens (fuel : nat) (smiles : string) (pad_len : Z)
    (i j : nat) (sym : option string) : list string :=
  match fuel with
  | O => []
  | S fuel' =>
      let '(i1, sym1) := try_block smiles i sym in
      match sym1 with
      | None => []
      | Some s =>
          s :: match stop_test smiles i1 (S j) pad_len with
               | Ok false => tokens fuel' smiles pad_len i1 (S j) sym1
               | _ => []
               end
      end
  end.

Definition tokens_of (smiles : string) (pad_len : Z) : list string :=
  let smiles := smiles +:+ "." in
  tokens (S (rows_of smiles pad_len)) smiles pad_len 0 0 None.

(** The number of characters of a string without 'r', 'i', 'l' and '.'
    that are encoded: all of them, or [pad_len - 1] when that is less. *)
Definition encoded_length (smiles : string) (pad_len : Z) : nat :=
  if pad_len <? 0 then String.length smiles
  else Nat.min (String.length smiles) (Z.to_nat (pad_len - 1)).

(** A string without 'r', 'i', 'l' and '.': every character is a token. *)
Definition plain (smiles : string) : Prop :=
  Forall (fun c => second_letter c = false /\ c <> "."%char)
    (list_ascii_of_string smiles).

(** A stand-in for [scipy.linalg.sqrtm] that is right on diagonal matrices
    without a negative entry, and real everywhere: the roots of the cells. *)
Definition sqrtm_cellwise (a : matrix) : result array2 :=
  Ok (RealArray (NdArray (shape a) (map (map PrimFloat.sqrt) (cells a)))).

(** ** The sampling script (code/generation.py, lines 32-52)

    The script has read [smiles_list], the first column of the input file,
    and [R], the rows of the similarity file, both without their header
    line.  [R] is a list of lists that the loop updates in place:
    [similar_smiles] is the row [R[i]] itself, and [+=] appends to it.  The
    rows come from [csv.reader], one fresh list each, so updating one row
    leaves the others as they are. *)
Definition N_SAMPLED : nat := 100.

Section Generation.
(** [MollibSampler().sample] is no code under this directory: it is a
    parameter, taken not to change the list it is given. *)
Variable sample : list string -> nat -> result (list string).

(** Lines 35-39: the loop over [enumerate(smiles_list)], from index [i] on,
    with the state of [R] and of [outputs]. *)
Fixpoint sampling_loop (smiles_list : list string) (i : nat)
    (R outputs : list (list string))
  : result (list (list string) * list (list string)) :=
  match smiles_list with
  | [] => Ok (R, outputs)
  | smiles :: rest =>
      match R !! i with
      | None => Raise IndexError
      | Some row =>
          let similar_smiles := row ++ [smiles] in
          let R := <[i := similar_smiles]> R in
          sampled_smiles ← sample similar_smiles N_SAMPLED;
          sampling_loop rest (S i) R (outputs ++ [sampled_smiles])
      end
  end.

(** Lines 34-52, with the sampler of line 33 in hand: the rows written to
    the output file, after the header row that line 49 builds; [header]
    stands for that row. *)
Definition generation (header : list string) (smiles_list : list string)
    (R : list (list string)) : result (list (list string)) :=
  state ← sampling_loop smiles_list 0 R [];
  let outputs := snd state in
  _ ← (if Nat.eqb (length smiles_list) (length outputs)
       then Ok tt else Raise (AssertionError EmptyString));
  Ok (header :: outputs).
End Generation.

Section GenerationMain.
(** Line 33, [sampler = MollibSampler()]: the class is no code under this
    directory, so the object it builds and its [sample] method are
    parameters.  Building the object may raise. *)
Variable Sampler : Type.
Variable MollibSampler : result Sampler.
Variable sample : Sampler -> list string -> nat -> result (list string).

(** Lines 32-52. *)
Definition generation_main (header : list string) (smiles_list : list string)
    (R : list (list string)) : result (list (list string)) :=
  sampler ← MollibSampler;
  generation (sample sampler) header smiles_list R.
End GenerationMain.

(** A stand-in for the sampler, to run the script on concrete files: [n]
    copies of the molecule it finds last in the list. *)
Definition sample_last (similar_smiles : list string) (n : nat)
  : result (list string) :=
  Ok (replicate n (default "C" (last similar_smiles))).

(** * Facts *)

Example get_one_hot_CCO :
  option_map (map decode_row) (match get_one_hot "CCO" 5 with Ok v => Some v | _ => None end)
  = Some [Some "C"; Some "C"; Some "O"; Some "."; None].
Proof. vm_compute. reflexivity. Qed.

(** A two-letter atom is one row; an unknown symbol is the wildcard; the
    terminator is forced into the last row when the string is too long. *)
Example get_one_hot_truncated :
  option_map (map decode_row)
    (match get_one_hot "ClC?CCCCC" 4 with Ok v => Some v | _ => None end)
  = Some [Some "Cl"; Some "C"; Some "X"; Some "."].
Proof. vm_compute. reflexivity. Qed.

(** [np.allclose(_, 0, atol=1e-3)]: the bound itself is close, the next
    float above it is not, and neither is a NaN or an infinity. *)
Example allclose_zero_tolerance :
  allclose_zero [0%float; atol_imag; (- atol_imag)%float] = true
  /\ allclose_zero [next_up atol_imag] = false
  /\ allclose_zero [nan] = false
  /\ allclose_zero [infinity] = false.
Proof. repeat split. Qed.

(** ** Facts about strings *)

Lemma length_app_string (a b : string) :
  String.length (a +:+ b) = (String.length a + String.length b)%nat.
Proof. induction a as [|c a IH]; simpl; [reflexivity | now rewrite IH]. Qed.

Lemma length_sentinel (a : string) :
  String.length (a +:+ ".") = S (String.length a).
Proof. rewrite length_app_string. simpl. lia. Qed.

Lemma get_app_l (p r : string) (k : nat) :
  (k < String.length p)%nat -> String.get k (p +:+ r) = String.get k p.
Proof.
  revert k. induction p as [|c p IH]; simpl; intros k Hk; [lia|].
  destruct k as [|k]; [reflexivity|]. apply IH. lia.
Qed.

Lemma get_sentinel (a : string) :
  String.get (String.length a) (a +:+ ".") = Some "."%char.
Proof. induction a as [|c a IH]; simpl; [reflexivity | exact IH]. Qed.

Lemma get_lt_Some (s : string) (k : nat) :
  (k < String.length s)%nat -> exists c, String.get k s = Some c.
Proof.
  revert k. induction s as [|c s IH]; simpl; intros k Hk; [lia|].
  destruct k as [|k]; [eauto|]. apply IH. lia.
Qed.

Lemma get_ge_None (s : string) (k : nat) :
  (String.length s <= k)%nat -> String.get k s = None.
Proof.
  revert k. induction s as [|c s IH]; simpl; intros k Hk.
  - now destruct k.
  - destruct k as [|k]; [lia|]. apply IH. lia.
Qed.

Lemma substring_app_l (p r : string) (i m : nat) :
  (i + m <= String.length p)%nat ->
  substring i m (p +:+ r) = substring i m p.
Proof.
  revert i m. induction p as [|c p IH]; simpl; intros i m H.
  - assert (i = 0%nat) by lia. assert (m = 0%nat) by lia. subst.
    now destruct r.
  - destruct i as [|i].
    + destruct m as [|m]; [reflexivity|]. f_equal. apply IH. lia.
    + apply IH. lia.
Qed.

Lemma substring_two (s : string) (i : nat) (a b : ascii) :
  String.get i s = Some a -> String.get (i + 1) s = Some b ->
  substring i 2 s = String a (String b EmptyString).
Proof.
  revert i. induction s as [|c s IH]; intros i Ha Hb.
  - now destruct i.
  - destruct i as [|i]; simpl in *.
    + inversion Ha; subst. destruct s as [|c' s]; [discriminate|].
      simpl in *. inversion Hb; subst. now destruct s.
    + now apply IH.
Qed.

(** ** The scan stays inside the sentinel-appended string

    [p] is a string whose last character, at index [n], is the sentinel. *)

Section Sentinel.
Variables (p : string) (n : nat).
Hypothesis p_length : String.length p = S n.
Hypothesis p_last : String.get n p = Some "."%char.

(** From a position before the sentinel the [try] block reads inside [p],
    binds [sym] and moves forward by one or two, never past the sentinel. *)
Lemma try_block_inside (i : nat) (sym : option string) :
  (i < n)%nat ->
  exists i1 s, try_block p i sym = (i1, Some s)
               /\ (i < i1 <= n)%nat
               /\ (s = "." -> String.get i p = Some "."%char).
Proof.
  intros Hi. unfold try_block.
  destruct (get_lt_Some p (i + 1)) as [c Hc]; [lia|]. rewrite Hc.
  destruct (second_letter c) eqn:Hs.
  - exists (i + 2)%nat, (substring i 2 p). split; [reflexivity|]. split.
    + assert ((i + 1)%nat <> n).
      { intros E. rewrite E in Hc. rewrite p_last in Hc.
        inversion Hc; subst c. discriminate Hs. }
      lia.
    + destruct (get_lt_Some p i) as [d Hd]; [lia|].
      rewrite (substring_two p i d c Hd Hc). discriminate.
  - destruct (get_lt_Some p i) as [d Hd]; [lia|]. rewrite Hd.
    exists (i + 1)%nat, (String d EmptyString). split; [reflexivity|].
    split; [lia|]. intros E. now inversion E.
Qed.

(** After a successful stop test that says "go on", the scan is again
    before the sentinel. *)
Lemma stop_test_inside (i j : nat) (pad_len : Z) :
  (i <= n)%nat ->
  exists b, stop_test p i j pad_len = Ok b
            /\ (b = false -> (i < n)%nat /\ String.get i p <> Some "."%char).
Proof.
  intros Hi. unfold stop_test.
  destruct (get_lt_Some p i) as [c Hc]; [lia|]. rewrite Hc.
  eexists; split; [reflexivity|].
  intros Hb. apply orb_false_iff in Hb as [Hb _].
  apply Ascii.eqb_neq in Hb.
  assert (i <> n).
  { intros E. subst i. rewrite p_last in Hc. congruence. }
  split; [lia | congruence].
Qed.

(** What lies after the sentinel is never read. *)
Lemma try_block_prefix (r : string) (i : nat) (sym : option string) :
  (i < n)%nat -> try_block (p +:+ r) i sym = try_block p i sym.
Proof.
  intros Hi. unfold try_block.
  rewrite !get_app_l by lia.
  destruct (String.get (i + 1) p) as [c|] eqn:Hc; [|reflexivity].
  destruct (second_letter c) eqn:Hs; [|reflexivity].
  rewrite substring_app_l; [reflexivity|].
  assert ((i + 1)%nat <> n).
  { intros E. rewrite E in Hc. rewrite p_last in Hc.
    inversion Hc; subst c. discriminate Hs. }
  lia.
Qed.

Lemma stop_test_prefix (r : string) (i j : nat) (pad_len : Z) :
  (i <= n)%nat -> stop_test (p +:+ r) i j pad_len = stop_test p i j pad_len.
Proof. intros Hi. unfold stop_test. now rewrite get_app_l by lia. Qed.

Lemma scan_prefix (r : string) (pad_len : Z) (fuel : nat) :
  forall (i j : nat) (sym : option string) (vec : tensor),
    (i < n)%nat ->
    scan fuel (p +:+ r) pad_len i j sym vec = scan fuel p pad_len i j sym vec.
Proof.
  induction fuel as [|fuel IH]; intros i j sym vec Hi; [reflexivity|].
  simpl. rewrite try_block_prefix by assumption.
  destruct (try_block_inside i sym Hi) as (i1 & s & -> & Hi1 & _).
  destruct (column_of s) as [k| |]; simpl; try reflexivity.
  destruct (setitem vec j k) as [vec1| |]; simpl; try reflexivity.
  rewrite stop_test_prefix by lia.
  destruct (stop_test_inside i1 (S j) pad_len) as (b & -> & Hb); [lia|].
  simpl. destruct b; [reflexivity|].
  apply IH. now destruct Hb.
Qed.
End Sentinel.

Lemma app_string_assoc (a b c : string) : (a +:+ b) +:+ c = a +:+ (b +:+ c).
Proof.
  induction a as [|x a IH]; [reflexivity|].
  change (String x ((a +:+ b) +:+ c) = String x (a +:+ (b +:+ c))).
  now f_equal.
Qed.

Lemma get_S_Some (s : string) (i : nat) (c : ascii) :
  String.get (i + 1) s = Some c -> exists d, String.get i s = Some d.
Proof.
  intros H. apply get_lt_Some.
  destruct (Nat.lt_ge_cases i (String.length s)) as [Hlt|Hge]; [exact Hlt|].
  rewrite get_ge_None in H by lia. discriminate.
Qed.

Lemma substring_one (s : string) (i : nat) (d : ascii) :
  String.get i s = Some d -> substring i 1 s = String d EmptyString.
Proof.
  revert i. induction s as [|c s IH]; intros i H.
  - now destruct i.
  - destruct i as [|i]; simpl in *.
    + inversion H; subst. now destruct s.
    + now apply IH.
Qed.

(** The only two-letter entries of the vocabulary end in 'l', 'r' or 'i'. *)
Lemma two_letter_atom (a b : ascii) :
  contains (String a (String b EmptyString)) one_hot = true ->
  second_letter b = true.
Proof.
  unfold contains, one_hot. simpl. rewrite !orb_true_iff. intros H.
  repeat match type of H with
         | _ \/ _ => destruct H as [H|H]
         end;
    try discriminate H;
    match type of H with
    | (if ?c then _ else _) = true => destruct c
    end;
    simpl in H; try discriminate H;
    match type of H with
    | (if ?c then _ else _) = true => destruct c eqn:E
    end;
    simpl in H; try discriminate H;
    apply Ascii.eqb_eq in E; subst b; reflexivity.
Qed.

(** The loop cannot run out of the fuel [get_one_hot] gives it: an iteration
    that is reached with [j] beyond the last row raises [IndexError]. *)
Lemma scan_fuel (smiles : string) (pad_len : Z) (fuel : nat) :
  forall (i j : nat) (sym : option string) (vec : tensor),
    (length vec < fuel + j)%nat -> fuel <> 0%nat ->
    scan fuel smiles pad_len i j sym vec <> OutOfFuel.
Proof.
  induction fuel as [|fuel IH]; intros i j sym vec Hlen Hf; [congruence|].
  simpl. destruct (try_block smiles i sym) as [i1 [s|]]; [|discriminate].
  unfold column_of, index.
  assert (Hidx : forall x l k, index_from x l k <> OutOfFuel).
  { intros x l. induction l as [|y l IHl]; intros k; simpl; [discriminate|].
    destruct (String.eqb x y); [discriminate | apply IHl]. }
  assert (Hset : forall v a b, setitem v a b <> OutOfFuel).
  { intros v a b. unfold setitem. destruct (v !! a); [|discriminate].
    destruct (b <? length l)%nat; discriminate. }
  assert (Hcol : (if contains s one_hot then index_from s one_hot 0
                  else index_from "X" one_hot 0) <> OutOfFuel).
  { destruct (contains s one_hot); apply Hidx. }
  destruct (if contains s one_hot then index_from s one_hot 0
            else index_from "X" one_hot 0) as [k| |]; simpl;
    [|discriminate|congruence].
  destruct (setitem vec j k) as [vec1| |] eqn:Hv; simpl;
    [|discriminate|exfalso; eapply Hset; eauto].
  assert (Hj : (j < length vec)%nat /\ length vec1 = length vec).
  { unfold setitem in Hv. destruct (vec !! j) as [row|] eqn:Hrow; [|discriminate].
    destruct (k <? length row)%nat; [|discriminate].
    injection Hv as <-.
    split; [eapply lookup_lt_Some; eauto | apply length_insert]. }
  destruct Hj as [Hj Hl].
  unfold stop_test. destruct (String.get i1 smiles) as [c|]; simpl; [|discriminate].
  match goal with |- context [if ?b then _ else _] => destruct b end.
  - destruct (index_from "." one_hot 0) as [kd| |] eqn:Hk; simpl;
      [apply Hset | discriminate | exfalso; eapply Hidx; eauto].
  - apply IH; lia.
Qed.

(** ** Item assignment and vocabulary columns *)

Lemma setitem_Ok (vec : tensor) (j k : nat) (row : list float) :
  vec !! j = Some row -> (k < length row)%nat ->
  setitem vec j k = Ok (<[j := <[k := 1%float]> row]> vec).
Proof.
  intros Hrow Hk. unfold setitem. rewrite Hrow.
  apply Nat.ltb_lt in Hk. now rewrite Hk.
Qed.

(** Every symbol has a column; the terminator column 34 is the column of
    the symbol "." alone, everything outside the vocabulary goes to the
    wildcard column 33. *)
Lemma column_of_spec (s : string) :
  exists k, column_of s = Ok k /\ (k < 35)%nat
            /\ (k = 34%nat -> s = ".")
            /\ (contains s one_hot = false -> k = 33%nat).
Proof.
  unfold column_of. destruct (contains s one_hot) eqn:Hc.
  - unfold contains in Hc. apply existsb_exists in Hc as (x & Hin & Hx).
    apply String.eqb_eq in Hx. subst x.
    unfold one_hot in Hin. simpl in Hin.
    repeat match type of Hin with
           | _ \/ _ => destruct Hin as [Hin|Hin]
           end;
      try contradiction; subst s;
      (eexists; split; [vm_compute; reflexivity|];
       split; [lia|]; split; [|discriminate]; intros E; try reflexivity;
       discriminate E).
  - exists 33%nat. split; [reflexivity|]. split; [lia|].
    split; [discriminate | reflexivity].
Qed.

Lemma index_dot : index "." one_hot = Ok 34%nat.
Proof. reflexivity. Qed.

Lemma is_terminator_row_hot (k : nat) :
  (k < 35)%nat ->
  is_terminator_row (<[k := 1%float]> zero_row) = Nat.eqb k 34.
Proof.
  intros Hk. unfold is_terminator_row.
  destruct (Nat.eqb_spec k 34) as [->|Hne]; [reflexivity|].
  rewrite list_lookup_insert_ne by assumption. reflexivity.
Qed.

(** Exactly one row satisfies a test when it holds at index [j] and fails
    at every other index. *)
Lemma count_single {A : Type} (f : A -> bool) (l : list A) (j : nat) (x : A) :
  l !! j = Some x -> f x = true ->
  (forall r y, l !! r = Some y -> r <> j -> f y = false) ->
  length (List.filter f l) = 1%nat.
Proof.
  revert j. induction l as [|a l IH]; intros j Hj Hx Hrest; [discriminate|].
  destruct j as [|j]; simpl in Hj; simpl.
  - injection Hj as ->. rewrite Hx. simpl. f_equal.
    assert (Hnone : List.filter f l = []).
    { clear IH. induction l as [|b l IHl]; [reflexivity|]. simpl.
      rewrite (Hrest 1%nat b eq_refl) by lia. apply IHl.
      intros r y Hy Hr. destruct r as [|r]; [lia|].
      apply (Hrest (S (S r)) y Hy). lia. }
    now rewrite Hnone.
  - rewrite (Hrest 0%nat a eq_refl) by lia.
    apply (IH j); [assumption | assumption |].
    intros r y Hy Hr. apply (Hrest (S r) y Hy). lia.
Qed.

(** ** The scan succeeds on every non-empty string

    [p] is the sentinel-appended string, [n] the index of its sentinel and
    [rows] the number of rows of the tensor. *)

Section Rows.
Variables (p : string) (n : nat) (pad_len : Z) (rows : nat).
Hypothesis p_length : String.length p = S n.
Hypothesis p_last : String.get n p = Some "."%char.

Lemma stop_test_value (i j : nat) :
  (i <= n)%nat ->
  exists c, String.get i p = Some c
            /\ stop_test p i j pad_len
               = Ok (Ascii.eqb c "." || ((Z.of_nat j >=? pad_len - 1) && (pad_len >? 0)))%bool.
Proof.
  intros Hi. destruct (get_lt_Some p i) as [c Hc]; [lia|].
  exists c. split; [assumption|]. unfold stop_test. now rewrite Hc.
Qed.

Lemma room_lt (i j : nat) :
  (i < n)%nat -> room n pad_len rows i j -> (S j < rows)%nat.
Proof. unfold room. lia. Qed.

Lemma scan_rows (fuel : nat) :
  forall (i j : nat) (sym : option string) (vec : tensor),
    (i < n)%nat -> room n pad_len rows i j -> blank_from rows j vec ->
    (rows < fuel + j)%nat ->
    exists v, scan fuel p pad_len i j sym vec = Ok v
              /\ length v = rows
              /\ (String.get i p <> Some "."%char ->
                  no_terminator_below j vec -> terminator_rows v = 1%nat).
Proof.
  induction fuel as [|fuel IH]; intros i j sym vec Hi Hroom [Hlen Hblank] Hfuel.
  { pose proof (room_lt i j Hi Hroom). lia. }
  pose proof (room_lt i j Hi Hroom) as Hj.
  simpl.
  destruct (try_block_inside p n p_length p_last i sym Hi)
    as (i1 & s & -> & Hi1 & Hdot).
  destruct (column_of_spec s) as (k & -> & Hk & Hk34 & _). simpl.
  assert (Hrow : vec !! j = Some zero_row).
  { destruct (lookup_lt_is_Some_2 vec j) as [row Hrow]; [lia|].
    pose proof (Hblank j row Hrow ltac:(lia)) as ->. exact Hrow. }
  rewrite (setitem_Ok vec j k zero_row Hrow) by (simpl; lia). simpl.
  set (vec1 := <[j := <[k := 1%float]> zero_row]> vec).
  assert (Hlen1 : length vec1 = rows) by (unfold vec1; now rewrite length_insert).
  assert (Hblank1 : forall r row, vec1 !! r = Some row -> (S j <= r)%nat ->
                                  row = zero_row).
  { intros r row Hr Hle. unfold vec1 in Hr.
    rewrite list_lookup_insert_ne in Hr by lia. apply (Hblank r row Hr). lia. }
  assert (Hbelow1 : String.get i p <> Some "."%char ->
                    no_terminator_below j vec -> no_terminator_below (S j) vec1).
  { intros Hnd Hbelow r row Hr Hlt. unfold vec1 in Hr.
    destruct (Nat.eq_dec r j) as [->|Hne].
    - rewrite list_lookup_insert_eq in Hr by lia. injection Hr as <-.
      rewrite is_terminator_row_hot by assumption.
      apply Nat.eqb_neq. intros E. apply Hnd, Hdot, Hk34, E.
    - rewrite list_lookup_insert_ne in Hr by lia. apply (Hbelow r row Hr). lia. }
  destruct (stop_test_value i1 (S j)) as (c & Hc & ->); [lia|]. simpl.
  destruct (Ascii.eqb c "." || ((Z.of_nat (S j) >=? pad_len - 1) && (pad_len >? 0)))%bool
    eqn:Hstop.
  - assert (Hrow1 : vec1 !! S j = Some zero_row).
    { destruct (lookup_lt_is_Some_2 vec1 (S j)) as [row Hr]; [lia|].
      pose proof (Hblank1 (S j) row Hr ltac:(lia)) as ->. exact Hr. }
    rewrite (setitem_Ok vec1 (S j) 34 zero_row Hrow1) by (simpl; lia).
    eexists; split; [reflexivity|]. split; [now rewrite length_insert|].
    intros Hnd Hbelow. unfold terminator_rows.
    apply (count_single _ _ (S j) (<[34%nat := 1%float]> zero_row)).
    + apply list_lookup_insert_eq. lia.
    + reflexivity.
    + intros r row Hr Hne. rewrite list_lookup_insert_ne in Hr by lia.
      destruct (Nat.lt_ge_cases r (S j)) as [Hlt|Hge].
      * apply (Hbelow1 Hnd Hbelow r row Hr Hlt).
      * now rewrite (Hblank1 r row Hr) by lia.
  - apply orb_false_iff in Hstop as [Hc' Hpad].
    apply Ascii.eqb_neq in Hc'.
    assert (Hi1n : (i1 < n)%nat).
    { destruct (Nat.eq_dec i1 n) as [->|]; [|lia].
      rewrite p_last in Hc. congruence. }
    destruct (IH i1 (S j) (Some s) vec1) as (v & Hv & Hlv & Hterm).
    + exact Hi1n.
    + unfold room in *. apply andb_false_iff in Hpad.
      destruct Hroom as [(Hn & Hr & Hji)|(Hp & Hr & Hjp)]; [left; lia|right].
      split; [lia|]. split; [assumption|].
      destruct Hpad as [Hge|Hgt].
      * rewrite Z.geb_leb in Hge. apply Z.leb_gt in Hge. lia.
      * rewrite Z.gtb_ltb in Hgt. apply Z.ltb_ge in Hgt. lia.
    + split; assumption.
    + lia.
    + exists v. split; [exact Hv|]. split; [exact Hlv|].
      intros Hnd Hbelow. apply Hterm; [congruence|].
      now apply Hbelow1.
Qed.
End Rows.

(** ** Results on [get_one_hot] *)

(** [get_one_hot] is total: the bounded unrolling of its loop never runs out. *)
Lemma get_one_hot_total (smiles : string) (pad_len : Z) :
  get_one_hot smiles pad_len <> OutOfFuel.
Proof.
  unfold get_one_hot. apply scan_fuel; [|discriminate].
  unfold zeros. rewrite length_replicate. lia.
Qed.

Lemma blank_zeros (rows : nat) :
  blank_from rows 0 (zeros rows (length one_hot)).
Proof.
  split; [apply length_replicate|].
  intros r row Hr _. apply lookup_replicate in Hr as [-> _]. reflexivity.
Qed.

Lemma nonempty_length (a : string) : a <> EmptyString -> (0 < String.length a)%nat.
Proof. destruct a; [congruence | simpl; lia]. Qed.

(** Without padding, a non-empty string of length [n] gives [n + 1] rows. *)
Lemma get_one_hot_unpadded (smiles : string) (pad_len : Z) :
  smiles <> EmptyString -> pad_len < 0 ->
  exists v, get_one_hot smiles pad_len = Ok v
            /\ length v = S (String.length smiles).
Proof.
  intros Hne Hneg. unfold get_one_hot.
  assert (Hrows : rows_of (smiles +:+ ".") pad_len = S (String.length smiles)).
  { unfold rows_of. apply Z.ltb_lt in Hneg. rewrite Hneg. apply length_sentinel. }
  rewrite Hrows.
  destruct (scan_rows (smiles +:+ ".") (String.length smiles) pad_len
              (S (String.length smiles)) (length_sentinel smiles)
              (get_sentinel smiles) (S (S (String.length smiles))) 0 0 None
              (zeros (S (String.length smiles)) (length one_hot)))
    as (v & Hv & Hl & _).
  - now apply nonempty_length.
  - left. lia.
  - apply blank_zeros.
  - lia.
  - exists v. split; assumption.
Qed.

(** The forced-truncation disjunct of the stop test is off when [pad_len]
    is negative. *)
Lemma truncation_off (pad_len : Z) (j : nat) :
  pad_len < 0 -> ((Z.of_nat j >=? pad_len - 1) && (pad_len >? 0))%bool = false.
Proof.
  intros H. apply andb_false_iff. right.
  rewrite Z.gtb_ltb. apply Z.ltb_ge. lia.
Qed.

(** With [pad_len >= 2], a non-empty string gives exactly [pad_len] rows,
    and exactly one terminator row unless the string starts with a dot. *)
Lemma get_one_hot_padded (smiles : string) (pad_len : Z) :
  smiles <> EmptyString -> 2 <= pad_len ->
  exists v, get_one_hot smiles pad_len = Ok v
            /\ length v = Z.to_nat pad_len
            /\ (String.get 0 smiles <> Some "."%char -> terminator_rows v = 1%nat).
Proof.
  intros Hne Hpad. unfold get_one_hot.
  assert (Hrows : rows_of (smiles +:+ ".") pad_len = Z.to_nat pad_len).
  { unfold rows_of. destruct (Z.ltb_spec pad_len 0); [lia | reflexivity]. }
  rewrite Hrows.
  destruct (scan_rows (smiles +:+ ".") (String.length smiles) pad_len
              (Z.to_nat pad_len) (length_sentinel smiles)
              (get_sentinel smiles) (S (Z.to_nat pad_len)) 0 0 None
              (zeros (Z.to_nat pad_len) (length one_hot)))
    as (v & Hv & Hl & Ht).
  - now apply nonempty_length.
  - right. lia.
  - apply blank_zeros.
  - lia.
  - exists v. split; [assumption|]. split; [assumption|].
    intros Hdot. apply Ht.
    + rewrite get_app_l by now apply nonempty_length. exact Hdot.
    + intros r row _ Hr. lia.
Qed.

(** A string that starts with a dot is encoded with two terminator rows:
    the dot at index 0 is a token like any other. *)
Example get_one_hot_leading_dot :
  option_map (fun v => (map decode_row v, terminator_rows v))
    (match get_one_hot ".C" 5 with Ok v => Some v | _ => None end)
  = Some ([Some "."; Some "C"; Some "."; None; None], 2%nat).
Proof. vm_compute. reflexivity. Qed.

(** C2.  With [pad_len >= 2] the encoder is length-safe on every string but
    the empty one.  On the empty string the first [try] block reads index 1
    of the one-character string ".", which is past its end; the exception is
    swallowed with [sym] still unbound, and line 182 raises
    [UnboundLocalError].  Every other string gives [pad_len] rows, with
    exactly one terminator row unless the string starts with a dot. *)
Theorem get_one_hot_length_safety (smiles : string) (pad_len : Z) :
  2 <= pad_len ->
  (smiles = EmptyString ->
   String.get (0 + 1) (smiles +:+ ".") = None
   /\ get_one_hot smiles pad_len = Raise (UnboundLocalError "sym"))
  /\ (smiles <> EmptyString ->
      exists v, get_one_hot smiles pad_len = Ok v
                /\ length v = Z.to_nat pad_len
                /\ (String.get 0 smiles <> Some "."%char ->
                    terminator_rows v = 1%nat)).
Proof.
  intros Hpad. split.
  - intros ->. split; reflexivity.
  - intros Hne. now apply get_one_hot_padded.
Qed.

Lemma get_one_hot_length_safety_witness :
  2 <= 5 /\ get_one_hot EmptyString 5 = Raise (UnboundLocalError "sym").
Proof.
  split; [lia|].
  exact (proj2 (proj1 (get_one_hot_length_safety EmptyString 5 ltac:(lia))
                  eq_refl)).
Defined.

(** C8.  With a negative [pad_len] the forced-truncation disjunct of the
    stop test is never true, and every string but the empty one gives
    length plus 1 rows.  The empty string gives no tensor at all: the call
    raises [UnboundLocalError] instead of returning one row. *)
Theorem get_one_hot_unpadded_rows (smiles : string) (pad_len : Z) :
  pad_len < 0 ->
  (forall j : nat, ((Z.of_nat j >=? pad_len - 1) && (pad_len >? 0))%bool = false)
  /\ (smiles = EmptyString ->
      get_one_hot smiles pad_len = Raise (UnboundLocalError "sym"))
  /\ (smiles <> EmptyString ->
      exists v, get_one_hot smiles pad_len = Ok v
                /\ length v = S (String.length smiles)).
Proof.
  intros Hneg. split; [|split].
  - intros j. now apply truncation_off.
  - intros ->. reflexivity.
  - intros Hne. now apply get_one_hot_unpadded.
Qed.

Lemma get_one_hot_unpadded_rows_witness :
  -1 < 0 /\ get_one_hot EmptyString (-1) = Raise (UnboundLocalError "sym").
Proof.
  split; [lia|].
  exact (proj1 (proj2 (get_one_hot_unpadded_rows EmptyString (-1) ltac:(lia)))
           eq_refl).
Defined.

(** C3, as the code has it.  At a scan position [i] whose next character
    [c] exists, the [try] block consumes two characters exactly when [c] is
    'r', 'i' or 'l', and one character otherwise; the token is the consumed
    slice.  Every two-letter entry of the vocabulary found at [i] is
    therefore consumed whole, but the converse fails: a pair outside the
    vocabulary is consumed whole as well, and goes to the wildcard column. *)
Theorem try_block_two_characters (smiles : string) (i : nat)
    (sym : option string) (c : ascii) :
  String.get (i + 1) smiles = Some c ->
  let consumed := if second_letter c then 2%nat else 1%nat in
  try_block smiles i sym
    = ((i + consumed)%nat, Some (substring i consumed smiles))
  /\ (String.length (substring i 2 smiles) = 2%nat ->
      contains (substring i 2 smiles) one_hot = true ->
      consumed = 2%nat)
  /\ (consumed = 2%nat ->
      contains (substring i 2 smiles) one_hot = false ->
      column_of (substring i 2 smiles) = Ok 33%nat).
Proof.
  intros Hc. cbv zeta.
  destruct (get_S_Some smiles i c Hc) as [d Hd].
  pose proof (substring_two smiles i d c Hd Hc) as Hpair.
  split; [|split].
  - unfold try_block. rewrite Hc, Hd.
    destruct (second_letter c); [reflexivity|].
    now rewrite (substring_one smiles i d Hd).
  - intros _ Hin. rewrite Hpair in Hin.
    now rewrite (two_letter_atom d c Hin).
  - intros _ Hout. unfold column_of. now rewrite Hout.
Qed.

Lemma try_block_two_characters_witness :
  String.get (0 + 1) "Cl." = Some "l"%char
  /\ try_block "Cl." 0 None = (2%nat, Some "Cl").
Proof.
  split; [reflexivity|].
  exact (proj1 (try_block_two_characters "Cl." 0 None "l"%char eq_refl)).
Defined.

(** C3 as stated fails on "Nl": the pair is no vocabulary entry, yet both
    characters are consumed as one token, encoded as the wildcard. *)
Lemma try_block_unrecognized_pair :
  contains "Nl" one_hot = false
  /\ try_block ("Nl" +:+ ".") 0 None = (2%nat, Some "Nl")
  /\ column_of "Nl" = index "X" one_hot.
Proof. repeat split. Qed.

(** C10, as the code has it.  For a non-empty [A] and a non-negative
    [pad_len], what follows the first dot after [A] is never read. *)
Theorem get_one_hot_cut_at_dot (A B : string) (pad_len : Z) :
  A <> EmptyString -> 0 <= pad_len ->
  get_one_hot (A +:+ "." +:+ B) pad_len = get_one_hot A pad_len.
Proof.
  intros Hne Hpad. unfold get_one_hot.
  assert (Hrows : forall s, rows_of s pad_len = Z.to_nat pad_len).
  { intros s. unfold rows_of. destruct (Z.ltb_spec pad_len 0); [lia | reflexivity]. }
  rewrite !Hrows.
  replace ((A +:+ "." +:+ B) +:+ ".") with ((A +:+ ".") +:+ (B +:+ "."))
    by now rewrite !app_string_assoc.
  apply (scan_prefix (A +:+ ".") (String.length A)).
  - apply length_sentinel.
  - apply get_sentinel.
  - now apply nonempty_length.
Qed.

Lemma get_one_hot_cut_at_dot_witness :
  "CC" <> EmptyString /\ 0 <= 5
  /\ get_one_hot ("CC" +:+ "." +:+ "O") 5 = get_one_hot "CC" 5.
Proof.
  split; [discriminate|]. split; [lia|].
  apply (get_one_hot_cut_at_dot "CC" "O" 5); [discriminate | lia].
Defined.

(** C10 as stated fails twice: without padding the number of rows follows
    the whole string, and a dot at index 0 does not stop the scan. *)
Lemma get_one_hot_cut_counterexample :
  get_one_hot ("C" +:+ "." +:+ "C") (-1) <> get_one_hot "C" (-1)
  /\ get_one_hot (EmptyString +:+ "." +:+ "C") 5 <> get_one_hot EmptyString 5.
Proof.
  split.
  - intros H.
    apply (f_equal (fun r => match r with Ok v => length v | _ => 0%nat end)) in H.
    vm_compute in H. discriminate H.
  - intros H. apply (f_equal is_ok) in H. vm_compute in H. discriminate H.
Qed.

Ltac unfold_M :=
  unfold py_assert, np_sub, np_dot, linalg_sqrtm, emit, lift,
    mbind, M_bind, mret, M_ret in *.

Section FrechetFacts.
Variable sqrtm : matrix -> result array2.
Variables (mu1 mu2 : vector) (sigma1 sigma2 : matrix) (eps : float).

(** Once both assertions hold, the function is the mean difference, then
    [covmean_of], then [real_part], then line 87. *)
Lemma calculate_frechet_distance_run (log : list event) :
  length mu1 = length mu2 -> shape sigma1 = shape sigma2 ->
  calculate_frechet_distance sqrtm mu1 sigma1 mu2 sigma2 eps log
  = match covmean_of sqrtm sigma1 sigma2 eps (log ++ [EvSub mu1 mu2]) with
    | (Ok covmean, log') =>
        (c ← real_part covmean; Ok (distance_value mu1 sigma1 mu2 sigma2 c), log')
    | (Raise e, log') => (Raise e, log')
    | (OutOfFuel, log') => (OutOfFuel, log')
    end.
Proof.
  intros Hmu Hsigma. unfold calculate_frechet_distance.
  rewrite (bool_decide_eq_true_2 _ Hmu), (bool_decide_eq_true_2 _ Hsigma).
  unfold_M. simpl.
  destruct (covmean_of sqrtm sigma1 sigma2 eps (log ++ [EvSub mu1 mu2]))
    as [[covmean| |] log']; try reflexivity.
  destruct (real_part covmean); reflexivity.
Qed.

(** When the product of line 68 exists, both shapes are square, so the
    sums and the product of line 76 exist too. *)
Lemma regularized_shapes (P : matrix) :
  shape sigma1 = shape sigma2 -> mdot sigma1 sigma2 = Ok P ->
  exists S1 S2 P2,
    madd sigma1 (offset_of sigma1 eps) = Ok S1
    /\ madd sigma2 (offset_of sigma1 eps) = Ok S2
    /\ mdot S1 S2 = Ok P2.
Proof.
  intros Hshape HP. unfold mdot in HP.
  destruct (Nat.eqb_spec (snd (shape sigma1)) (fst (shape sigma2))) as [Hsq|];
    [|discriminate].
  clear HP. rewrite <- Hshape in Hsq.
  unfold madd, mdot, offset_of. simpl. rewrite <- Hshape.
  destruct (shape sigma1) as [r c]. simpl in *. subst c.
  rewrite (bool_decide_eq_true_2 _ eq_refl). simpl.
  do 3 eexists. split; [reflexivity|]. split; [reflexivity|].
  simpl. now rewrite Nat.eqb_refl.
Qed.

(** The regularisation path of [covmean_of]. *)
Lemma covmean_of_regularized (log : list event) (P S1 S2 P2 : matrix)
    (R1 : array2) :
  mdot sigma1 sigma2 = Ok P -> sqrtm P = Ok R1 -> isfinite_all R1 = false ->
  madd sigma1 (offset_of sigma1 eps) = Ok S1 ->
  madd sigma2 (offset_of sigma1 eps) = Ok S2 ->
  mdot S1 S2 = Ok P2 ->
  covmean_of sqrtm sigma1 sigma2 eps log
  = (sqrtm P2,
     log ++ [EvDot sigma1 sigma2; EvSqrtm P; EvWarn singular_msg eps;
             EvDot S1 S2; EvSqrtm P2]).
Proof.
  intros HP HR1 Hfin HS1 HS2 HP2.
  unfold covmean_of, regularized_covmean. fold (offset_of sigma1 eps).
  unfold_M. rewrite HP, HR1, Hfin. simpl. rewrite HS1, HS2, HP2.
  rewrite <- !app_assoc. simpl.
  destruct (sqrtm P2); reflexivity.
Qed.

(** The path of [covmean_of] without regularisation. *)
Lemma covmean_of_finite (log : list event) (P : matrix) (R1 : array2) :
  mdot sigma1 sigma2 = Ok P -> sqrtm P = Ok R1 -> isfinite_all R1 = true ->
  covmean_of sqrtm sigma1 sigma2 eps log
  = (Ok R1, log ++ [EvDot sigma1 sigma2; EvSqrtm P]).
Proof.
  intros HP HR1 Hfin. unfold covmean_of. unfold_M.
  rewrite HP, HR1, Hfin. simpl. now rewrite <- !app_assoc.
Qed.
End FrechetFacts.

(** The sums of line 76, cell by cell. *)
Lemma madd_offset (s : matrix) (n : nat) (eps : float) :
  shape s = (n, n) ->
  madd s (mscale (eye n) eps)
  = Ok (NdArray (shape s)
          (zip_with (zip_with PrimFloat.add) (cells s)
             (map (fun i => map (fun j => ((if Nat.eqb i j then 1 else 0) * eps)%float)
                              (seq 0 n))
                (seq 0 n)))).
Proof.
  intros Hs. unfold madd, mscale, eye. cbn [shape cells].
  rewrite (bool_decide_eq_true_2 _ Hs). do 3 f_equal.
  rewrite map_map. apply map_ext. intros i. now rewrite map_map.
Qed.

(** When the product of line 68 exists, the covariance matrices are square. *)
Lemma square_of_product (s1 s2 P : matrix) :
  shape s1 = shape s2 -> mdot s1 s2 = Ok P ->
  shape s1 = (fst (shape s1), fst (shape s1)).
Proof.
  intros Hshape HP. unfold mdot in HP.
  destruct (Nat.eqb_spec (snd (shape s1)) (fst (shape s2))) as [Hsq|]; [|discriminate].
  rewrite <- Hshape in Hsq. destruct (shape s1) as [r c]. simpl in *. now subst.
Qed.

(** ** Order of binary64 values

    [<=?] is reflexive, total and transitive away from NaN; [fmax] of a
    list is one of its entries, NaN as soon as one entry is, and otherwise
    not below any entry. *)

Lemma SFcompare_refl (s : spec_float) :
  s <> S754_nan -> SFcompare s s = Some Eq.
Proof.
  destruct s as [[]|[]| |[] m e]; simpl; try congruence;
    rewrite Z.compare_refl, Pos.compare_cont_refl; reflexivity.
Qed.

Lemma is_nan_false (x : float) : is_nan x = false -> Prim2SF x <> S754_nan.
Proof.
  unfold is_nan. rewrite FloatAxioms.eqb_spec. unfold SFeqb. intros H E. rewrite E in H.
  discriminate H.
Qed.

Lemma is_nan_true (x : float) : is_nan x = true -> Prim2SF x = S754_nan.
Proof.
  unfold is_nan. rewrite FloatAxioms.eqb_spec. unfold SFeqb. intros H.
  destruct (Prim2SF x) as [[]|[]| |[] m e] eqn:E; try reflexivity;
  rewrite SFcompare_refl in H by discriminate; discriminate H.
Qed.

Lemma SFleb_refl (s : spec_float) : s <> S754_nan -> SFleb s s = true.
Proof. intros H. unfold SFleb. now rewrite SFcompare_refl. Qed.

Lemma SFltb_leb (a b : spec_float) : SFltb a b = true -> SFleb a b = true.
Proof. unfold SFltb, SFleb. destruct (SFcompare a b) as [[]|]; congruence. Qed.

Lemma cont_antisym (m1 m2 : positive) :
  Pos.compare_cont Eq m2 m1 = CompOpp (Pos.compare_cont Eq m1 m2).
Proof. apply Pos.compare_antisym. Qed.

Lemma SFcompare_antisym (a b : spec_float) :
  SFcompare b a = option_map CompOpp (SFcompare a b).
Proof.
  destruct a as [[]|[]| |[] m1 e1], b as [[]|[]| |[] m2 e2]; simpl; try reflexivity;
    rewrite (Z.compare_antisym e1 e2), (cont_antisym m1 m2);
    destruct (e1 ?= e2); simpl; try reflexivity;
    destruct (Pos.compare_cont Eq m1 m2); reflexivity.
Qed.

Lemma SFltb_false_leb (a b : spec_float) :
  a <> S754_nan -> b <> S754_nan -> SFltb a b = false -> SFleb b a = true.
Proof.
  intros Ha Hb. unfold SFltb, SFleb. rewrite (SFcompare_antisym a b).
  destruct (SFcompare a b) as [[]|] eqn:E; simpl; try congruence.
  destruct a as [[]|[]| |[] m1 e1], b as [[]|[]| |[] m2 e2]; simpl in E; congruence.
Qed.

Lemma SFleb_trans (a b c : spec_float) :
  SFleb a b = true -> SFleb b c = true -> SFleb a c = true.
Proof.
  unfold SFleb.
  destruct a as [[]|[]| |[] m1 e1], b as [[]|[]| |[] m2 e2], c as [[]|[]| |[] m3 e3];
    simpl; try congruence;
    repeat match goal with
           | |- context [(?x ?= ?y)%Z] => destruct (Z.compare_spec x y)
           end; try congruence; try lia; subst;
    repeat match goal with
           | |- context [Pos.compare_cont Eq ?x ?y] =>
               change (Pos.compare_cont Eq x y) with (Pos.compare x y);
               destruct (Pos.compare_spec x y)
           end; simpl; try congruence; try lia.
Qed.

Lemma leb_refl (x : float) : is_nan x = false -> (x <=? x)%float = true.
Proof. intros H. rewrite FloatAxioms.leb_spec. apply SFleb_refl. now apply is_nan_false. Qed.

Lemma fmax_in (a b : float) : fmax a b = a \/ fmax a b = b.
Proof. unfold fmax. destruct (is_nan a), (is_nan b), (a <? b)%float; auto. Qed.

Lemma fmax_nan (a b : float) :
  is_nan (fmax a b) = is_nan a || is_nan b.
Proof.
  unfold fmax. destruct (is_nan a) eqn:Ha; [exact Ha|].
  destruct (is_nan b) eqn:Hb; [exact Hb|].
  destruct (a <? b)%float; simpl; assumption.
Qed.

Lemma fmax_upper (a b : float) :
  is_nan a = false -> is_nan b = false ->
  (a <=? fmax a b)%float = true /\ (b <=? fmax a b)%float = true.
Proof.
  intros Ha Hb. unfold fmax. rewrite Ha, Hb.
  destruct (a <? b)%float eqn:E.
  - split; [|now apply leb_refl]. rewrite FloatAxioms.leb_spec. apply SFltb_leb.
    now rewrite <- FloatAxioms.ltb_spec.
  - split; [now apply leb_refl|]. rewrite FloatAxioms.leb_spec.
    apply SFltb_false_leb; [now apply is_nan_false..|]. now rewrite <- FloatAxioms.ltb_spec.
Qed.

Lemma leb_trans (a b c : float) :
  (a <=? b)%float = true -> (b <=? c)%float = true -> (a <=? c)%float = true.
Proof. rewrite !FloatAxioms.leb_spec. apply SFleb_trans. Qed.

Lemma fold_fmax_in (l : list float) (x : float) :
  In (fold_left fmax l x) (x :: l).
Proof.
  revert x. induction l as [|y l IH]; intros x; [left; reflexivity|].
  cbn [fold_left]. destruct (IH (fmax x y)) as [E|E].
  - rewrite <- E. destruct (fmax_in x y) as [->| ->]; [left | right; left]; reflexivity.
  - right. right. exact E.
Qed.

Lemma fold_fmax_nan (l : list float) (x : float) :
  is_nan (fold_left fmax l x) = is_nan x || existsb is_nan l.
Proof.
  revert x. induction l as [|y l IH]; intros x; simpl.
  - now rewrite orb_false_r.
  - rewrite IH, fmax_nan. now rewrite orb_assoc.
Qed.

Lemma fold_fmax_upper (l : list float) (x : float) :
  is_nan x = false -> forallb (fun y => negb (is_nan y)) l = true ->
  Forall (fun y => (y <=? fold_left fmax l x)%float = true) (x :: l).
Proof.
  revert x. induction l as [|y l IH]; intros x Hx Hl; simpl in *.
  - constructor; [now apply leb_refl | constructor].
  - apply andb_prop in Hl as [Hy Hl]. apply negb_true_iff in Hy.
    destruct (fmax_upper x y Hx Hy) as [H1 H2].
    assert (Hm : is_nan (fmax x y) = false) by (now rewrite fmax_nan, Hx, Hy).
    specialize (IH (fmax x y) Hm Hl). inversion IH as [|? ? Hhd Htl]; subst.
    constructor; [eapply leb_trans; eauto|].
    constructor; [eapply leb_trans; eauto|]. exact Htl.
Qed.

Lemma not_finite_not_zero (x : float) :
  is_finite x = false -> (x =? 0)%float = false.
Proof.
  unfold is_finite. intros H. apply negb_false_iff in H.
  apply orb_prop in H as [H|H].
  - apply is_nan_true in H. rewrite FloatAxioms.eqb_spec, H. reflexivity.
  - unfold is_infinity in H. rewrite FloatAxioms.eqb_spec, abs_spec in H.
    rewrite FloatAxioms.eqb_spec.
    destruct (Prim2SF x) as [[]|[]| |[] m e]; try reflexivity;
      vm_compute in H; try discriminate H.
Qed.

(** [np.isclose(y, 0, atol=1e-3)]: [y] is finite and within 1e-3 of 0. *)
Lemma isclose_zero (y : float) :
  isclose rtol_default atol_imag y 0
  = is_finite y && (abs (y - 0) <=? 0x1.0624dd2f1a9fcp-10)%float.
Proof.
  unfold isclose. destruct (is_finite y) eqn:E.
  - reflexivity.
  - simpl. now apply not_finite_not_zero.
Qed.

(** The real part of a diagonal is the diagonal of the real part. *)
Lemma diagonal_from_real (i : nat) (rows : list (list (float * float))) :
  diagonal_from i (map (map fst) rows) = map fst (diagonal_from i rows).
Proof.
  revert i. induction rows as [|row rows IH]; intros i; [reflexivity|].
  simpl. rewrite list_lookup_fmap. destruct (row !! i) as [z|]; [|reflexivity].
  simpl. now rewrite IH.
Qed.

Lemma trace_real (c : cmatrix) : trace (real c) = fsum (map fst (diagonal c)).
Proof. unfold trace, diagonal, real. simpl. now rewrite diagonal_from_real. Qed.

Lemma allclose_zero_within (l : list float) :
  allclose_zero l
  = forallb (fun y => is_finite y
                      && (abs (y - 0) <=? 0x1.0624dd2f1a9fcp-10)%float) l.
Proof.
  unfold allclose_zero. induction l as [|y l IH]; [reflexivity|].
  simpl. now rewrite isclose_zero, IH.
Qed.

(** [np.max] of a list with an entry: an entry of the list, NaN when one
    entry is, and otherwise not below any entry. *)
Lemma np_max_spec (l : list float) (m : float) :
  np_max l = Ok m ->
  In m l
  /\ (Forall (fun a => is_nan a = false) l ->
      Forall (fun a => (a <=? m)%float = true) l)
  /\ (Exists (fun a => is_nan a = true) l -> is_nan m = true).
Proof.
  destruct l as [|x l]; [discriminate|]. simpl. intros [= <-].
  split; [apply fold_fmax_in|]. split.
  - intros Hall. inversion Hall as [|? ? Hx Hl]; subst.
    apply fold_fmax_upper; [exact Hx|].
    apply forallb_forall. intros y Hy. apply negb_true_iff.
    rewrite List.Forall_forall in Hl. now apply Hl.
  - intros Hex. rewrite fold_fmax_nan.
    inversion Hex as [? ? Hx|? ? Hl]; subst; [now rewrite Hx|].
    apply orb_true_iff. right. apply existsb_exists.
    apply List.Exists_exists in Hl as (y & Hy & Hnan). eauto.
Qed.

(** ** Results on [calculate_frechet_distance] *)

Lemma np_max_nonempty (l : list float) :
  l <> [] -> exists m, np_max l = Ok m.
Proof. destruct l; [congruence | simpl; eauto]. Qed.

(** A diagonal with an entry belongs to an array with a cell. *)
Lemma diagonal_cells {A : Type} (i : nat) (rows : list (list A)) :
  diagonal_from i rows <> [] -> concat rows <> [].
Proof.
  destruct rows as [|row rows]; simpl; [congruence|].
  destruct row as [|x row]; [now rewrite lookup_nil|]. discriminate.
Qed.

(** A failed assertion is the whole run. *)
Lemma shape_mismatch (sqrtm : matrix -> result array2)
    (mu1 mu2 : vector) (sigma1 sigma2 : matrix) (eps : float) :
  length mu1 <> length mu2 \/ shape sigma1 <> shape sigma2 ->
  exists msg,
    calculate_frechet_distance sqrtm mu1 sigma1 mu2 sigma2 eps []
    = (Raise (AssertionError msg), []).
Proof.
  intros H. unfold calculate_frechet_distance.
  destruct (decide (length mu1 = length mu2)) as [Hmu|Hmu].
  - destruct H as [H|H]; [contradiction|].
    exists cov_msg.
    now rewrite (bool_decide_eq_true_2 _ Hmu), (bool_decide_eq_false_2 _ H).
  - exists mean_msg. now rewrite (bool_decide_eq_false_2 _ Hmu).
Qed.

(** C6.  When the mean vectors or the covariance matrices disagree in
    shape, the call raises [AssertionError] with nothing logged: no mean
    difference, no product, no square root (whatever [sqrtm] would do) and no
    warning.  The message is the one of the first assertion that fails. *)
Theorem shape_mismatch_raises_first (sqrtm : matrix -> result array2)
    (mu1 mu2 : vector) (sigma1 sigma2 : matrix) (eps : float) :
  length mu1 <> length mu2 \/ shape sigma1 <> shape sigma2 ->
  exists msg,
    calculate_frechet_distance sqrtm mu1 sigma1 mu2 sigma2 eps []
    = (Raise (AssertionError msg), [])
    /\ (length mu1 <> length mu2 -> msg = mean_msg)
    /\ (length mu1 = length mu2 -> msg = cov_msg).
Proof.
  intros H. unfold calculate_frechet_distance.
  destruct (decide (length mu1 = length mu2)) as [Hmu|Hmu].
  - destruct H as [H|H]; [contradiction|].
    exists cov_msg.
    rewrite (bool_decide_eq_true_2 _ Hmu), (bool_decide_eq_false_2 _ H).
    split; [reflexivity|]. split; [contradiction | reflexivity].
  - exists mean_msg. rewrite (bool_decide_eq_false_2 _ Hmu).
    split; [reflexivity|]. split; [reflexivity | contradiction].
Qed.

Lemma shape_mismatch_raises_first_witness :
  calculate_frechet_distance (fun _ => OutOfFuel)
    [0; 0; 0]%float (eye 3) [0; 0; 0; 0]%float (eye 4) eps_default []
  = (Raise (AssertionError mean_msg), []).
Proof.
  destruct (shape_mismatch_raises_first (fun _ => OutOfFuel)
              [0; 0; 0]%float [0; 0; 0; 0]%float (eye 3) (eye 4) eps_default)
    as (msg & Hrun & Hmean & _).
  - left. simpl. lia.
  - rewrite Hrun, Hmean; [reflexivity | simpl; lia].
Defined.

(** C5.  When the square root that reaches line 79 is complex, the outcome
    is decided by the imaginary parts of its diagonal.  When every one of
    them is finite and within 1e-3 of 0, the call returns line 87 with the
    trace taken over the real parts of the diagonal alone: no imaginary part
    enters the value.  Otherwise it raises [ValueError] with [m], which is the
    absolute imaginary part of a cell of [covmean], diagonal or not: NaN when
    one cell has it, and otherwise not below that of any cell. *)
Theorem complex_covmean_handling (sqrtm : matrix -> result array2)
    (mu1 mu2 : vector) (sigma1 sigma2 : matrix) (eps : float)
    (c : cmatrix) (log : list event) :
  length mu1 = length mu2 -> shape sigma1 = shape sigma2 ->
  covmean_of sqrtm sigma1 sigma2 eps [EvSub mu1 mu2] = (Ok (ComplexArray c), log) ->
  let diff := zip_with PrimFloat.sub mu1 mu2 in
  let within (y : float) :=
    is_finite y && (abs (y - 0) <=? 0x1.0624dd2f1a9fcp-10)%float in
  let magnitudes := map (fun z => abs (snd z)) (concat (cells c)) in
  (forallb within (map snd (diagonal c)) = true ->
   calculate_frechet_distance sqrtm mu1 sigma1 mu2 sigma2 eps []
   = (Ok (vdot diff diff + trace sigma1 + trace sigma2
          - 2 * fsum (map fst (diagonal c)))%float, log))
  /\ (forallb within (map snd (diagonal c)) = false ->
      exists m,
        calculate_frechet_distance sqrtm mu1 sigma1 mu2 sigma2 eps []
        = (Raise (ValueError imaginary_msg (Some m)), log)
        /\ In m magnitudes
        /\ (Forall (fun a => is_nan a = false) magnitudes ->
            Forall (fun a => (a <=? m)%float = true) magnitudes)
        /\ (Exists (fun a => is_nan a = true) magnitudes -> is_nan m = true)).
Proof.
  intros Hmu Hsigma Hcov diff within magnitudes.
  rewrite (calculate_frechet_distance_run sqrtm mu1 mu2 sigma1 sigma2 eps []
             Hmu Hsigma).
  simpl app. rewrite Hcov. unfold real_part, imag_diagonal.
  rewrite allclose_zero_within. fold within.
  split; intros Hclose; rewrite Hclose.
  - simpl. unfold distance_value. fold diff. now rewrite trace_real.
  - destruct (np_max_nonempty (abs_imag c)) as [m Hm].
    + unfold abs_imag. intros E. apply map_eq_nil in E. revert E.
      apply (diagonal_cells 0). unfold diagonal in Hclose.
      intros E. rewrite E in Hclose. discriminate Hclose.
    + exists m. split; [simpl; now rewrite Hm|].
      exact (np_max_spec (abs_imag c) m Hm).
Qed.

Lemma complex_covmean_handling_witness :
  calculate_frechet_distance sqrtm_triangular
    mu_zero (sigma_diag (-0x1p-30)) mu_zero (eye 3) eps_default []
  = (Ok 0x1.fffffff8p-1%float,
     [EvSub mu_zero mu_zero; EvDot (sigma_diag (-0x1p-30)) (eye 3);
      EvSqrtm (sigma_diag (-0x1p-30))])
  /\ calculate_frechet_distance sqrtm_triangular
       mu_zero (sigma_diag (-1)) mu_zero (eye 3) eps_default []
     = (Raise (ValueError imaginary_msg (Some 1%float)),
        [EvSub mu_zero mu_zero; EvDot (sigma_diag (-1)) (eye 3);
         EvSqrtm (sigma_diag (-1))]).
Proof.
  split.
  - destruct (complex_covmean_handling sqrtm_triangular mu_zero mu_zero
                (sigma_diag (-0x1p-30)) (eye 3) eps_default
                (NdArray (3, 3)%nat
                   [[(1, 0); (0, 0); (0, 0)];
                    [(0, 0); (1, 0); (0, 0)];
                    [(0, 0); (0, 0); (0, 0x1p-15)]]%float)
                [EvSub mu_zero mu_zero;
                 EvDot (sigma_diag (-0x1p-30)) (eye 3);
                 EvSqrtm (sigma_diag (-0x1p-30))]
                eq_refl eq_refl)
      as [Hclose _].
    + vm_compute. reflexivity.
    + rewrite Hclose by (vm_compute; reflexivity). vm_compute. reflexivity.
  - destruct (complex_covmean_handling sqrtm_triangular mu_zero mu_zero
                (sigma_diag (-1)) (eye 3) eps_default
                (NdArray (3, 3)%nat
                   [[(1, 0); (0, 0); (0, 0)];
                    [(0, 0); (1, 0); (0, 0)];
                    [(0, 0); (0, 0); (0, 1)]]%float)
                [EvSub mu_zero mu_zero;
                 EvDot (sigma_diag (-1)) (eye 3);
                 EvSqrtm (sigma_diag (-1))]
                eq_refl eq_refl)
      as [_ Hfar].
    + vm_compute. reflexivity.
    + destruct (Hfar ltac:(vm_compute; reflexivity)) as (m & Hrun & Hin & Hup & _).
      rewrite Hrun. do 3 f_equal.
      assert (Hone : (1 <=? m)%float = true).
      { assert (Hall : Forall (fun a => (a <=? m)%float = true)
                         (replicate 8 0%float ++ [1%float])).
        { apply Hup. repeat constructor. }
        apply Forall_app in Hall as [_ Hall]. now inversion Hall. }
      simpl in Hin.
      repeat (destruct Hin as [<-|Hin]; [first [reflexivity | discriminate Hone]|]).
      contradiction.
Defined.

(** X16.  The regularisation path.  When the first square root has a
    non-finite entry, the call warns with the message that carries [eps],
    adds [eye * eps] to both covariance matrices cell by cell, multiplies
    the two sums and takes the square root of that product.  Lines 79-87 then
    run on the new square root as on any other: the call raises when that
    root cannot be taken or fails the test of line 80, and returns line 87
    with the traces of [sigma1] and [sigma2] themselves otherwise. *)
Theorem regularization_warns_and_recomputes (sqrtm : matrix -> result array2)
    (mu1 mu2 : vector) (sigma1 sigma2 : matrix) (eps : float)
    (P : matrix) (R1 : array2) :
  length mu1 = length mu2 -> shape sigma1 = shape sigma2 ->
  mdot sigma1 sigma2 = Ok P -> sqrtm P = Ok R1 -> isfinite_all R1 = false ->
  let diff := zip_with PrimFloat.sub mu1 mu2 in
  let n := fst (shape sigma1) in
  let plus_eps (s : matrix) :=
    NdArray (shape s)
      (zip_with (zip_with PrimFloat.add) (cells s)
         (map (fun i => map (fun j => ((if Nat.eqb i j then 1 else 0) * eps)%float)
                          (seq 0 n))
            (seq 0 n))) in
  exists P2,
    mdot (plus_eps sigma1) (plus_eps sigma2) = Ok P2
    /\ calculate_frechet_distance sqrtm mu1 sigma1 mu2 sigma2 eps []
       = (R2 ← sqrtm P2; c ← real_part R2;
          Ok (vdot diff diff + trace sigma1 + trace sigma2 - 2 * trace c)%float,
          [EvSub mu1 mu2; EvDot sigma1 sigma2; EvSqrtm P;
           EvWarn singular_msg eps;
           EvDot (plus_eps sigma1) (plus_eps sigma2); EvSqrtm P2]).
Proof.
  intros Hmu Hsigma HP HR1 Hfin diff n plus_eps.
  pose proof (square_of_product sigma1 sigma2 P Hsigma HP) as Hsq1.
  assert (Hsq2 : shape sigma2 = (n, n)) by (now rewrite <- Hsigma).
  pose proof (madd_offset sigma1 n eps Hsq1) as HS1.
  pose proof (madd_offset sigma2 n eps Hsq2) as HS2.
  fold (plus_eps sigma1) in HS1. fold (plus_eps sigma2) in HS2.
  destruct (regularized_shapes sigma1 sigma2 eps P Hsigma HP)
    as (S1 & S2 & P2 & HS1' & HS2' & HP2).
  unfold offset_of in HS1', HS2'. fold n in HS1', HS2'.
  rewrite HS1 in HS1'. rewrite HS2 in HS2'.
  injection HS1' as <-. injection HS2' as <-.
  exists P2. split; [exact HP2|].
  rewrite (calculate_frechet_distance_run sqrtm mu1 mu2 sigma1 sigma2 eps []
             Hmu Hsigma).
  rewrite (covmean_of_regularized sqrtm sigma1 sigma2 eps _ P (plus_eps sigma1)
             (plus_eps sigma2) P2 R1 HP HR1 Hfin HS1 HS2 HP2).
  simpl app. destruct (sqrtm P2) as [R2| |]; reflexivity.
Qed.

Lemma regularization_warns_and_recomputes_witness :
  exists S1 S2 P2,
    calculate_frechet_distance sqrtm_triangular
      mu_zero (sigma_nilpotent 1) mu_zero (eye 3) eps_default []
    = (Ok 0x1.fef9b98c4a9e4p+0%float,
       [EvSub mu_zero mu_zero; EvDot (sigma_nilpotent 1) (eye 3);
        EvSqrtm (sigma_nilpotent 1); EvWarn singular_msg eps_default;
        EvDot S1 S2; EvSqrtm P2])
    /\ diagonal S1 = [eps_default; eps_default; (1 + eps_default)%float]
    /\ diagonal S2 = [(1 + eps_default)%float; (1 + eps_default)%float;
                      (1 + eps_default)%float]
    /\ mdot S1 S2 = Ok P2.
Proof.
  destruct (regularization_warns_and_recomputes sqrtm_triangular
              mu_zero mu_zero (sigma_nilpotent 1) (eye 3) eps_default
              (sigma_nilpotent 1)
              (RealArray (NdArray (3, 3)%nat (replicate 3 (replicate 3 nan))))
              eq_refl eq_refl eq_refl eq_refl eq_refl)
    as (P2 & HP2 & Hrun).
  do 2 eexists. exists P2. split; [|split; [|split; [|exact HP2]]].
  - rewrite Hrun. vm_compute in HP2. injection HP2 as <-.
    vm_compute. reflexivity.
  - vm_compute. reflexivity.
  - vm_compute. reflexivity.
Defined.

(** ** The store

    Every step of [calculate_frechet_distance_store] reads the store or adds
    an object to it, so the whole function does. *)

Lemma extends_bind {A B : Type} (m : H A) (k : A -> H B) :
  extends m -> (forall a, extends (k a)) -> extends (m ≫= k).
Proof.
  intros Hm Hk h log r h' log' Hrun. unfold mbind, H_bind in Hrun.
  destruct (m h log) as [[[[a|e|] h1] log1]|] eqn:E; try discriminate Hrun.
  - destruct (Hm _ _ _ _ _ E) as [n1 ->].
    destruct (Hk a _ _ _ _ _ Hrun) as [n2 ->].
    exists (n1 ++ n2). now rewrite app_assoc.
  - injection Hrun as <- <- <-. exact (Hm _ _ _ _ _ E).
  - injection Hrun as <- <- <-. exact (Hm _ _ _ _ _ E).
Qed.

Lemma extends_same {A : Type} (m : H A) :
  (forall h log r h' log', m h log = Some (r, h', log') -> h' = h) -> extends m.
Proof. intros Hm h log r h' log' E. exists []. rewrite app_nil_r. eauto. Qed.

Lemma extends_ret {A : Type} (a : A) : extends (mret a).
Proof. apply extends_same. intros h log r h' log' [= _ <- _]. reflexivity. Qed.

Lemma extends_alloc (o : object) : extends (alloc o).
Proof. intros h log r h' log' [= _ <- _]. eauto. Qed.

Lemma extends_load_vector (a : addr) : extends (load_vector a).
Proof.
  apply extends_same. unfold load_vector. intros h log r h' log' E.
  destruct (h !! a) as [[]|]; congruence.
Qed.

Lemma extends_load_array (a : addr) : extends (load_array a).
Proof.
  apply extends_same. unfold load_array. intros h log r h' log' E.
  destruct (h !! a) as [[| |b]|]; try congruence.
  destruct (h !! b) as [[|[]|]|]; congruence.
Qed.

Lemma extends_load_matrix (a : addr) : extends (load_matrix a).
Proof.
  intros h log r h' log' E. unfold load_matrix in E.
  destruct (load_array a h log) as [[[[[]| |] h1] log1]|] eqn:E1; try discriminate E.
  injection E as <- <- <-. exact (extends_load_array a _ _ _ _ _ E1).
Qed.

Lemma extends_emit (e : event) : extends (st_emit e).
Proof. apply extends_same. intros h log r h' log' [= _ <- _]. reflexivity. Qed.

Lemma extends_lift {A : Type} (x : result A) : extends (st_lift x).
Proof. apply extends_same. intros h log r h' log' [= _ <- _]. reflexivity. Qed.

Lemma extends_assert (cond : bool) (msg : string) : extends (st_assert cond msg).
Proof. destruct cond; [apply extends_ret | apply extends_lift]. Qed.

Create HintDb extends.
#[local] Hint Resolve extends_ret extends_alloc extends_load_vector
  extends_load_array extends_load_matrix extends_emit extends_lift
  extends_assert : extends.

Ltac extends_steps :=
  repeat first
    [ apply extends_bind; [|intros ?]
    | solve [auto with extends]
    | match goal with
      | |- extends (if ?b then _ else _) => destruct b
      | |- extends (match ?x with _ => _ end) => destruct x
      end ].

Lemma extends_calculate_frechet_distance_store (sqrtm : matrix -> result array2)
    (mu1 sigma1 mu2 sigma2 : addr) (eps : float) :
  extends (calculate_frechet_distance_store sqrtm mu1 sigma1 mu2 sigma2 eps).
Proof.
  unfold calculate_frechet_distance_store, st_sub, st_dot, st_sqrtm, st_scale, st_add.
  extends_steps.
Qed.

(** *** The steps of the function on a store that holds its arrays *)

Lemma H_bind_eq {A B : Type} (m : H A) (k : A -> H B) (h : store) (log : list event) :
  (m ≫= k) h log
  = match m h log with
    | Some (Ok a, h', log') => k a h' log'
    | Some (Raise e, h', log') => Some (Raise e, h', log')
    | Some (OutOfFuel, h', log') => Some (OutOfFuel, h', log')
    | None => None
    end.
Proof. reflexivity. Qed.

Lemma load_vector_eq (h : store) (log : list event) (a : addr) (v : vector) :
  h !! a = Some (Vec v) -> load_vector a h log = Some (Ok v, h, log).
Proof. unfold load_vector. now intros ->. Qed.

Lemma load_array_eq (h : store) (log : list event) (a : addr) (x : array2) :
  h !! a = Some (Arr x) -> load_array a h log = Some (Ok x, h, log).
Proof. unfold load_array. now intros ->. Qed.

Lemma load_matrix_eq (h : store) (log : list event) (a : addr) (m : matrix) :
  h !! a = Some (Arr (RealArray m)) -> load_matrix a h log = Some (Ok m, h, log).
Proof. intros E. unfold load_matrix. now rewrite (load_array_eq _ _ _ _ E). Qed.

Lemma load_view_eq (h : store) (log : list event) (a base : addr) (z : cmatrix) :
  h !! a = Some (RealView base) -> h !! base = Some (Arr (ComplexArray z)) ->
  load_matrix a h log = Some (Ok (real z), h, log).
Proof. intros E1 E2. unfold load_matrix, load_array. now rewrite E1, E2. Qed.

Ltac lookup_tac :=
  repeat first
    [ assumption
    | solve [apply list_lookup_middle; reflexivity]
    | apply lookup_app_l_Some ].

Section StoreSteps.
Variable sqrtm : matrix -> result array2.

Lemma st_sub_eq (h : store) (log : list event) (a b : addr) (x y : vector) :
  h !! a = Some (Vec x) -> h !! b = Some (Vec y) ->
  st_sub a b h log
  = Some (Ok (length h), h ++ [Vec (zip_with PrimFloat.sub x y)], log ++ [EvSub x y]).
Proof.
  intros Ha Hb. unfold st_sub.
  rewrite H_bind_eq, (load_vector_eq _ _ _ _ Ha).
  rewrite H_bind_eq, (load_vector_eq _ _ _ _ Hb).
  reflexivity.
Qed.

Lemma st_dot_eq (h : store) (log : list event) (a b : addr) (x y : matrix) :
  h !! a = Some (Arr (RealArray x)) -> h !! b = Some (Arr (RealArray y)) ->
  st_dot a b h log
  = match mdot x y with
    | Ok p => Some (Ok (length h), h ++ [Arr (RealArray p)], log ++ [EvDot x y])
    | Raise e => Some (Raise e, h, log ++ [EvDot x y])
    | OutOfFuel => Some (OutOfFuel, h, log ++ [EvDot x y])
    end.
Proof.
  intros Ha Hb. unfold st_dot.
  rewrite H_bind_eq, (load_matrix_eq _ _ _ _ Ha).
  rewrite H_bind_eq, (load_matrix_eq _ _ _ _ Hb).
  rewrite H_bind_eq. cbn [st_emit]. rewrite H_bind_eq. unfold st_lift.
  destruct (mdot x y); reflexivity.
Qed.

Lemma st_sqrtm_eq (h : store) (log : list event) (a : addr) (x : matrix) :
  h !! a = Some (Arr (RealArray x)) ->
  st_sqrtm sqrtm a h log
  = match sqrtm x with
    | Ok r => Some (Ok (length h), h ++ [Arr r], log ++ [EvSqrtm x])
    | Raise e => Some (Raise e, h, log ++ [EvSqrtm x])
    | OutOfFuel => Some (OutOfFuel, h, log ++ [EvSqrtm x])
    end.
Proof.
  intros Ha. unfold st_sqrtm.
  rewrite H_bind_eq, (load_matrix_eq _ _ _ _ Ha).
  rewrite H_bind_eq. cbn [st_emit]. rewrite H_bind_eq. unfold st_lift.
  destruct (sqrtm x); reflexivity.
Qed.

Lemma st_scale_eq (h : store) (log : list event) (a : addr) (m : matrix) (x : float) :
  h !! a = Some (Arr (RealArray m)) ->
  st_scale a x h log
  = Some (Ok (length h), h ++ [Arr (RealArray (mscale m x))], log).
Proof.
  intros Ha. unfold st_scale.
  rewrite H_bind_eq, (load_matrix_eq _ _ _ _ Ha). reflexivity.
Qed.

Lemma st_add_eq (h : store) (log : list event) (a b : addr) (x y : matrix) :
  h !! a = Some (Arr (RealArray x)) -> h !! b = Some (Arr (RealArray y)) ->
  st_add a b h log
  = match madd x y with
    | Ok s => Some (Ok (length h), h ++ [Arr (RealArray s)], log)
    | Raise e => Some (Raise e, h, log)
    | OutOfFuel => Some (OutOfFuel, h, log)
    end.
Proof.
  intros Ha Hb. unfold st_add.
  rewrite H_bind_eq, (load_matrix_eq _ _ _ _ Ha).
  rewrite H_bind_eq, (load_matrix_eq _ _ _ _ Hb).
  rewrite H_bind_eq. unfold st_lift.
  destruct (madd x y); reflexivity.
Qed.

(** Lines 79-87 on the store. *)
Lemma store_tail (h : store) (log : list event) (sigma1 sigma2 : addr)
    (m1 m2 : vector) (s1 s2 : matrix) (diff covmean : addr) (R : array2) :
  h !! sigma1 = Some (Arr (RealArray s1)) ->
  h !! sigma2 = Some (Arr (RealArray s2)) ->
  h !! diff = Some (Vec (zip_with PrimFloat.sub m1 m2)) ->
  h !! covmean = Some (Arr R) ->
  exists h',
    (root ← load_array covmean;
     covmean ← (match root with
                | ComplexArray z =>
                    if negb (allclose_zero (imag_diagonal z))
                    then m ← st_lift (np_max (abs_imag z));
                         st_lift (Raise (ValueError imaginary_msg (Some m)))
                    else alloc (RealView covmean)
                | RealArray _ => mret covmean
                end);
     c ← load_matrix covmean;
     let tr_covmean := trace c in
     d ← load_vector diff;
     s1 ← load_matrix sigma1;
     s2 ← load_matrix sigma2;
     mret (vdot d d + trace s1 + trace s2 - 2 * tr_covmean)%float) h log
    = Some (c ← real_part R; Ok (distance_value m1 s1 m2 s2 c), h', log).
Proof.
  intros Hs1 Hs2 Hd Hc.
  rewrite H_bind_eq, (load_array_eq _ _ _ _ Hc).
  rewrite H_bind_eq.
  destruct R as [m|z]; cbn [real_part].
  - cbn [mret H_ret].
    rewrite H_bind_eq, (load_matrix_eq _ _ _ _ Hc). cbv zeta.
    rewrite H_bind_eq, (load_vector_eq _ _ _ _ Hd).
    rewrite H_bind_eq, (load_matrix_eq _ _ _ _ Hs1).
    rewrite H_bind_eq, (load_matrix_eq _ _ _ _ Hs2).
    eexists. reflexivity.
  - destruct (negb (allclose_zero (imag_diagonal z))).
    + rewrite H_bind_eq. unfold st_lift.
      destruct (np_max (abs_imag z)); eexists; reflexivity.
    + cbn [alloc].
      rewrite H_bind_eq, (load_view_eq _ _ (length h) covmean z)
        by lookup_tac.
      cbv zeta.
      rewrite H_bind_eq, (load_vector_eq _ _ _ (zip_with PrimFloat.sub m1 m2))
        by lookup_tac.
      rewrite H_bind_eq, (load_matrix_eq _ _ _ s1) by lookup_tac.
      rewrite H_bind_eq, (load_matrix_eq _ _ _ s2) by lookup_tac.
      eexists. reflexivity.
Qed.
End StoreSteps.

(** On a store that holds the four arrays, the function runs as it does on
    their values. *)
Section StoreRun.
Variable sqrtm : matrix -> result array2.

Lemma store_run (h : store) (mu1 sigma1 mu2 sigma2 : addr)
    (m1 m2 : vector) (s1 s2 : matrix) (eps : float) :
  h !! mu1 = Some (Vec m1) -> h !! sigma1 = Some (Arr (RealArray s1)) ->
  h !! mu2 = Some (Vec m2) -> h !! sigma2 = Some (Arr (RealArray s2)) ->
  exists h',
    calculate_frechet_distance_store sqrtm mu1 sigma1 mu2 sigma2 eps h []
    = Some (fst (calculate_frechet_distance sqrtm m1 s1 m2 s2 eps []), h',
            snd (calculate_frechet_distance sqrtm m1 s1 m2 s2 eps [])).
Proof.
  intros Hm1 Hs1 Hm2 Hs2.
  remember (calculate_frechet_distance sqrtm m1 s1 m2 s2 eps []) as V eqn:HV.
  unfold calculate_frechet_distance_store.
  rewrite H_bind_eq, (load_vector_eq _ _ _ _ Hm1).
  rewrite H_bind_eq, (load_vector_eq _ _ _ _ Hm2).
  rewrite H_bind_eq.
  destruct (decide (length m1 = length m2)) as [Hmu|Hmu].
  2:{ unfold calculate_frechet_distance in HV.
      rewrite (bool_decide_eq_false_2 _ Hmu) in *. subst V. eexists. reflexivity. }
  rewrite (bool_decide_eq_true_2 _ Hmu). cbn [st_assert mret H_ret].
  rewrite H_bind_eq, (load_matrix_eq _ _ _ _ Hs1).
  rewrite H_bind_eq, (load_matrix_eq _ _ _ _ Hs2).
  rewrite H_bind_eq.
  destruct (decide (shape s1 = shape s2)) as [Hsigma|Hsigma].
  2:{ unfold calculate_frechet_distance in HV.
      rewrite (bool_decide_eq_true_2 _ Hmu), (bool_decide_eq_false_2 _ Hsigma) in *.
      subst V. eexists. reflexivity. }
  rewrite (bool_decide_eq_true_2 _ Hsigma). cbn [st_assert mret H_ret].
  rewrite (calculate_frechet_distance_run sqrtm m1 m2 s1 s2 eps [] Hmu Hsigma) in HV.
  unfold covmean_of, regularized_covmean in HV.
  unfold np_dot, linalg_sqrtm, emit, lift, mbind, M_bind, mret, M_ret in HV.
  simpl app in HV.
  rewrite H_bind_eq, (st_sub_eq _ _ _ _ _ _ Hm1 Hm2).
  rewrite H_bind_eq, (st_dot_eq _ _ _ _ s1 s2) by lookup_tac.
  destruct (mdot s1 s2) as [P|e|] eqn:HP; try (subst V; eexists; reflexivity).
  rewrite H_bind_eq, (st_sqrtm_eq sqrtm _ _ _ P) by lookup_tac.
  destruct (sqrtm P) as [R1|e|] eqn:HR1; try (subst V; eexists; reflexivity).
  rewrite H_bind_eq, (load_array_eq _ _ _ R1) by lookup_tac.
  rewrite H_bind_eq.
  destruct (isfinite_all R1) eqn:Hfin; cbn [negb] in *.
  - cbn [mret H_ret].
    match goal with
    | |- exists h', (load_array ?a ≫= _) ?hh ?ll = _ =>
        destruct (store_tail hh ll sigma1 sigma2 m1 m2 s1 s2 (length h) a R1)
          as [h' E]; [lookup_tac..|]
    end.
    exists h'. etransitivity; [exact E|]. subst V.
    destruct (real_part R1); reflexivity.
  - rewrite H_bind_eq. cbn [st_emit].
    rewrite H_bind_eq, (load_matrix_eq _ _ _ s1) by lookup_tac.
    rewrite H_bind_eq. cbn [alloc].
    rewrite H_bind_eq, (st_scale_eq _ _ _ (eye (fst (shape s1)))) by lookup_tac.
    rewrite H_bind_eq,
      (st_add_eq _ _ _ _ s1 (mscale (eye (fst (shape s1))) eps)) by lookup_tac.
    destruct (madd s1 (mscale (eye (fst (shape s1))) eps)) as [S1|e|] eqn:HS1;
      try (subst V; eexists; reflexivity).
    rewrite H_bind_eq,
      (st_add_eq _ _ _ _ s2 (mscale (eye (fst (shape s1))) eps)) by lookup_tac.
    destruct (madd s2 (mscale (eye (fst (shape s1))) eps)) as [S2|e|] eqn:HS2;
      try (subst V; eexists; reflexivity).
    rewrite H_bind_eq, (st_dot_eq _ _ _ _ S1 S2) by lookup_tac.
    destruct (mdot S1 S2) as [P2|e|] eqn:HP2;
      try (subst V; eexists; reflexivity).
    rewrite (st_sqrtm_eq sqrtm _ _ _ P2) by lookup_tac.
    destruct (sqrtm P2) as [R2|e|] eqn:HR2;
      try (subst V; eexists; reflexivity).
    match goal with
    | |- exists h', (load_array ?a ≫= _) ?hh ?ll = _ =>
        destruct (store_tail hh ll sigma1 sigma2 m1 m2 s1 s2 (length h) a R2)
          as [h' E]; [lookup_tac..|]
    end.
    exists h'. etransitivity; [exact E|]. subst V.
    destruct (real_part R2); reflexivity.
Qed.
End StoreRun.

(** C9.  The call leaves the caller's arrays as they are.  On a store
    that holds the two mean vectors and the two covariance matrices, the call
    ends with every object of that store unchanged, whatever its outcome: it
    only adds arrays.  When it returns, its value is line 87 with the traces
    of [sigma1] and [sigma2] as the store holds them, before and after.  On
    the regularisation path [eye * eps] enters the two sums that are
    multiplied, which are new arrays, and nothing else. *)
Theorem traces_of_the_inputs (sqrtm : matrix -> result array2)
    (h : store) (mu1 sigma1 mu2 sigma2 : addr)
    (m1 m2 : vector) (s1 s2 : matrix) (eps : float) :
  h !! mu1 = Some (Vec m1) -> h !! sigma1 = Some (Arr (RealArray s1)) ->
  h !! mu2 = Some (Vec m2) -> h !! sigma2 = Some (Arr (RealArray s2)) ->
  exists r h' log,
    calculate_frechet_distance_store sqrtm mu1 sigma1 mu2 sigma2 eps h []
    = Some (r, h', log)
    /\ (forall a o, h !! a = Some o -> h' !! a = Some o)
    /\ forall x, r = Ok x ->
         let diff := zip_with PrimFloat.sub m1 m2 in
         let n := fst (shape s1) in
         let plus_eps (s : matrix) :=
           NdArray (shape s)
             (zip_with (zip_with PrimFloat.add) (cells s)
                (map (fun i => map (fun j => ((if Nat.eqb i j then 1 else 0) * eps)%float)
                                 (seq 0 n))
                   (seq 0 n))) in
         exists P R1 c,
           mdot s1 s2 = Ok P /\ sqrtm P = Ok R1
           /\ x = (vdot diff diff + trace s1 + trace s2 - 2 * trace c)%float
           /\ (isfinite_all R1 = true ->
               real_part R1 = Ok c
               /\ log = [EvSub m1 m2; EvDot s1 s2; EvSqrtm P])
           /\ (isfinite_all R1 = false ->
               exists P2 R2,
                 mdot (plus_eps s1) (plus_eps s2) = Ok P2
                 /\ sqrtm P2 = Ok R2 /\ real_part R2 = Ok c
                 /\ log = [EvSub m1 m2; EvDot s1 s2; EvSqrtm P;
                           EvWarn singular_msg eps;
                           EvDot (plus_eps s1) (plus_eps s2); EvSqrtm P2]).
Proof.
  intros Hm1 Hs1 Hm2 Hs2.
  destruct (store_run sqrtm h mu1 sigma1 mu2 sigma2 m1 m2 s1 s2 eps
              Hm1 Hs1 Hm2 Hs2) as [h' Hrun].
  remember (calculate_frechet_distance sqrtm m1 s1 m2 s2 eps []) as V eqn:HV.
  exists (fst V), h', (snd V). split; [exact Hrun|]. split.
  { intros a o Ha.
    destruct (extends_calculate_frechet_distance_store sqrtm mu1 sigma1 mu2
                sigma2 eps _ _ _ _ _ Hrun) as [news ->].
    now apply lookup_app_l_Some. }
  clear Hrun. intros x Hx diff n plus_eps.
  assert (Hmu : length m1 = length m2).
  { destruct (decide (length m1 = length m2)) as [|Hne]; [assumption|].
    destruct (shape_mismatch sqrtm m1 m2 s1 s2 eps (or_introl Hne)) as (msg & E).
    rewrite E in HV. subst V. discriminate Hx. }
  assert (Hsigma : shape s1 = shape s2).
  { destruct (decide (shape s1 = shape s2)) as [|Hne]; [assumption|].
    destruct (shape_mismatch sqrtm m1 m2 s1 s2 eps (or_intror Hne)) as (msg & E).
    rewrite E in HV. subst V. discriminate Hx. }
  rewrite (calculate_frechet_distance_run sqrtm m1 m2 s1 s2 eps [] Hmu Hsigma) in HV.
  simpl app in HV.
  destruct (mdot s1 s2) as [P|e|] eqn:HP.
  2,3: unfold covmean_of, np_dot, emit, lift, mbind, M_bind in HV;
       rewrite HP in HV; subst V; discriminate Hx.
  destruct (sqrtm P) as [R1|e|] eqn:HR1.
  2,3: unfold covmean_of, np_dot, linalg_sqrtm, emit, lift, mbind, M_bind in HV;
       rewrite HP, HR1 in HV; subst V; discriminate Hx.
  pose proof (square_of_product s1 s2 P Hsigma HP) as Hsq1.
  assert (Hsq2 : shape s2 = (n, n)) by (now rewrite <- Hsigma).
  destruct (isfinite_all R1) eqn:Hfin.
  - rewrite (covmean_of_finite sqrtm s1 s2 eps _ P R1 HP HR1 Hfin) in HV.
    subst V. simpl in Hx.
    destruct (real_part R1) as [c| |] eqn:Hc; try discriminate Hx.
    injection Hx as <-.
    exists P, R1, c. split; [reflexivity|]. split; [exact HR1|].
    split; [reflexivity|]. split; [|intros E; congruence].
    intros _. split; [exact Hc | reflexivity].
  - pose proof (madd_offset s1 n eps Hsq1) as HS1.
    pose proof (madd_offset s2 n eps Hsq2) as HS2.
    fold (plus_eps s1) in HS1. fold (plus_eps s2) in HS2.
    destruct (regularized_shapes s1 s2 eps P Hsigma HP)
      as (S1 & S2 & P2 & HS1' & HS2' & HP2).
    unfold offset_of in HS1', HS2'. fold n in HS1', HS2'.
    rewrite HS1 in HS1'. rewrite HS2 in HS2'.
    injection HS1' as <-. injection HS2' as <-.
    rewrite (covmean_of_regularized sqrtm s1 s2 eps _ P (plus_eps s1)
               (plus_eps s2) P2 R1 HP HR1 Hfin HS1 HS2 HP2) in HV.
    subst V. simpl in Hx.
    destruct (sqrtm P2) as [R2| |] eqn:HR2; try discriminate Hx.
    destruct (real_part R2) as [c| |] eqn:Hc; try discriminate Hx.
    injection Hx as <-.
    exists P, R1, c. split; [reflexivity|]. split; [exact HR1|].
    split; [reflexivity|]. split; [intros E; congruence|].
    intros _. exists P2, R2. repeat (split; [assumption|]). reflexivity.
Qed.

Lemma traces_of_the_inputs_witness :
  let h := [Vec mu_zero; Arr (RealArray (sigma_nilpotent 1));
            Vec mu_zero; Arr (RealArray (eye 3))] in
  exists h' S1 S2 P2 R2 c,
    calculate_frechet_distance_store sqrtm_triangular 0%nat 1%nat 2%nat 3%nat
      eps_default h []
    = Some (Ok 0x1.fef9b98c4a9e4p+0%float, h',
            [EvSub mu_zero mu_zero; EvDot (sigma_nilpotent 1) (eye 3);
             EvSqrtm (sigma_nilpotent 1); EvWarn singular_msg eps_default;
             EvDot S1 S2; EvSqrtm P2])
    /\ (forall a o, h !! a = Some o -> h' !! a = Some o)
    /\ diagonal S1 = [eps_default; eps_default; (1 + eps_default)%float]
    /\ mdot S1 S2 = Ok P2
    /\ sqrtm_triangular P2 = Ok R2 /\ real_part R2 = Ok c
    /\ (0x1.fef9b98c4a9e4p+0
        = vdot (zip_with PrimFloat.sub mu_zero mu_zero)
            (zip_with PrimFloat.sub mu_zero mu_zero)
          + trace (sigma_nilpotent 1) + trace (eye 3) - 2 * trace c)%float.
Proof.
  intros h.
  destruct (traces_of_the_inputs sqrtm_triangular h 0%nat 1%nat 2%nat 3%nat
              mu_zero mu_zero (sigma_nilpotent 1) (eye 3) eps_default
              eq_refl eq_refl eq_refl eq_refl)
    as (r & h' & log & Hrun & Hframe & Hval).
  assert (Hr : r = Ok 0x1.fef9b98c4a9e4p+0%float).
  { vm_compute in Hrun. now injection Hrun as <- _ _. }
  destruct (Hval _ Hr) as (P & R1 & c & HP & HR1 & Hx & _ & Hreg).
  injection HP as <-.
  assert (Hfin : isfinite_all R1 = false).
  { vm_compute in HR1. now injection HR1 as <-. }
  destruct (Hreg Hfin) as (P2 & R2 & HP2 & HR2 & Hc & Hlog).
  subst r log. eexists h', _, _, P2, R2, c.
  split; [exact Hrun|]. split; [exact Hframe|].
  split; [vm_compute; reflexivity|].
  split; [exact HP2|]. split; [exact HR2|]. split; [exact Hc|]. exact Hx.
Defined.

(** An in-place sum is not such a step: it changes the array it adds to. *)
Example st_iadd_writes :
  st_iadd 0%nat 1%nat [Arr (RealArray (eye 2)); Arr (RealArray (eye 2))] []
  = Some (Ok tt,
          [Arr (RealArray (NdArray (2, 2)%nat [[2; 0]; [0; 2]]%float));
           Arr (RealArray (eye 2))], [])
  /\ ~ extends (st_iadd 0%nat 1%nat).
Proof.
  split; [vm_compute; reflexivity|].
  intros Hext.
  destruct (Hext [Arr (RealArray (eye 2)); Arr (RealArray (eye 2))] []
              (Ok tt) _ [] eq_refl) as [news Hnews].
  vm_compute in Hnews. discriminate Hnews.
Qed.

(** ** Results on the batch feeder and the extractor *)

Lemma ceil_div_bounds (n bs : nat) :
  (0 < bs)%nat ->
  (n <= (n + bs - 1) / bs * bs)%nat
  /\ (forall j, (j < (n + bs - 1) / bs)%nat -> (j * bs < n)%nat).
Proof.
  intros Hbs.
  pose proof (Nat.div_mod_eq (n + bs - 1) bs) as Hdm.
  pose proof (Nat.mod_upper_bound (n + bs - 1) bs ltac:(lia)) as Hr.
  set (q := ((n + bs - 1) / bs)%nat) in *.
  set (r := ((n + bs - 1) mod bs)%nat) in *.
  split; [nia|]. intros j Hj. nia.
Qed.

(** Contiguous groups of [bs] put side by side give the list back. *)
Lemma chunks_concat {A : Type} (l : list A) (bs nb j : nat) :
  concat (map (fun i => take bs (drop (i * bs) l)) (seq j nb))
  = take (nb * bs) (drop (j * bs) l).
Proof.
  revert j. induction nb as [|nb IH]; intros j; [reflexivity|].
  simpl seq. simpl map. simpl concat. rewrite IH.
  replace (S j * bs)%nat with (j * bs + bs)%nat by lia.
  rewrite <- drop_drop. now rewrite take_take_drop.
Qed.

Lemma take_min_length {A : Type} (l : list A) (bs : nat) :
  take (Nat.min bs (length l)) l = take bs l.
Proof.
  destruct (Nat.le_ge_cases bs (length l)) as [H|H].
  - now rewrite Nat.min_l.
  - rewrite Nat.min_r by assumption. now rewrite !take_ge by lia.
Qed.

(** Arrays of one number of rows make a batch. *)
Lemma np_asarray_same (n : nat) (x : list tensor) :
  Forall (fun t => length t = n) x -> np_asarray x = Ok x.
Proof.
  intros Hx. destruct x as [|t x']; [reflexivity|].
  unfold np_asarray.
  replace (forallb (fun u => Nat.eqb (length u) (length t)) (t :: x')) with true;
    [reflexivity|].
  symmetry. apply forallb_forall. intros u Hu. apply Nat.eqb_eq.
  rewrite List.Forall_forall in Hx.
  rewrite (Hx u Hu), (Hx t (or_introl eq_refl)). reflexivity.
Qed.

Section Feeder.
Variables (smiles_list : list string) (batch_size : nat).
Hypothesis batch_size_pos : (0 < batch_size)%nat.
Hypothesis molecules_nonempty : Forall (fun smiles => smiles <> EmptyString) smiles_list.

Lemma encode_each (a len : nat) :
  (a + len <= length smiles_list)%nat ->
  mapM (fun k => match smiles_list !! k with
                 | Some smiles => get_one_hot smiles 350
                 | None => Raise IndexError
                 end) (seq a len)
  = Ok (map (fun smiles => match get_one_hot smiles 350 with
                           | Ok vec => vec
                           | _ => []
                           end)
          (take len (drop a smiles_list))).
Proof.
  revert a. induction len as [|len IH]; intros a Ha; [reflexivity|].
  destruct (lookup_lt_is_Some_2 smiles_list a) as [smiles Hs]; [lia|].
  rewrite (drop_S _ _ _ Hs). simpl. rewrite Hs.
  assert (Hne : smiles <> EmptyString).
  { eapply Forall_lookup_1 in molecules_nonempty; eauto. }
  destruct (get_one_hot_padded smiles 350 Hne ltac:(lia)) as (v & -> & _).
  simpl. rewrite IH by lia. reflexivity.
Qed.

Lemma make_batch_group (j : nat) :
  (j * batch_size <= length smiles_list)%nat ->
  make_batch smiles_list batch_size 350 j
  = Ok (map encoded (take batch_size (drop (j * batch_size) smiles_list))).
Proof.
  intros Hj. unfold make_batch, arange_slice.
  replace (Nat.min (j * batch_size) (length smiles_list))
    with (j * batch_size)%nat by lia.
  replace (Nat.min (Nat.min ((j + 1) * batch_size) (length smiles_list))
             (length smiles_list) - j * batch_size)%nat
    with (Nat.min batch_size (length (drop (j * batch_size) smiles_list)))
    by (rewrite length_drop; lia).
  rewrite encode_each by (rewrite length_drop; lia).
  cbn [mbind result_bind]. rewrite (np_asarray_same 350).
  2:{ apply Forall_map, Forall_take, Forall_drop.
      eapply Forall_impl; [exact molecules_nonempty|].
      intros smiles Hne. simpl.
      destruct (get_one_hot_padded smiles 350 Hne ltac:(lia)) as (v & -> & Hv & _).
      exact Hv. }
  simpl. rewrite take_min_length. f_equal.
  rewrite !map_map. apply map_ext. intros smiles. unfold encoded.
  destruct (get_one_hot smiles 350); reflexivity.
Qed.

(** Inside a pass the generator yields group [j] and moves on to [j + 1]. *)
Lemma generator_yields (j : nat) :
  (j < (length smiles_list + batch_size - 1) / batch_size)%nat ->
  predict_my_generator smiles_list batch_size 350 j
  = Yield (map encoded (take batch_size (drop (j * batch_size) smiles_list)))
      (S j).
Proof.
  intros Hjn.
  destruct (ceil_div_bounds (length smiles_list) batch_size batch_size_pos)
    as [_ Hlt].
  unfold predict_my_generator, num_batches.
  destruct (Nat.eqb_spec batch_size 0) as [|_]; [lia|].
  destruct (Nat.ltb_spec j ((length smiles_list + batch_size - 1) / batch_size))
    as [_|]; [|lia].
  destruct (Nat.eqb_spec ((length smiles_list + batch_size - 1) / batch_size) 0)
    as [|_]; [lia|].
  rewrite make_batch_group by (specialize (Hlt j Hjn); lia).
  reflexivity.
Qed.

Lemma drive_groups (steps j : nat) :
  (j + steps <= (length smiles_list + batch_size - 1) / batch_size)%nat ->
  drive (predict_my_generator smiles_list batch_size 350) steps j
  = Ok (map (fun i => map encoded
                        (take batch_size (drop (i * batch_size) smiles_list)))
          (seq j steps)).
Proof.
  revert j. induction steps as [|steps IH]; intros j Hj; [reflexivity|].
  cbn [drive]. rewrite generator_yields by lia.
  rewrite IH by lia. reflexivity.
Qed.
End Feeder.

(** Without padding the encodings of molecules of different lengths have
    different numbers of rows, and no batch can be made of them. *)
Example predict_my_generator_ragged :
  predict_my_generator ["C"; "CC"] 2 (-1) 0
  = Throw (ValueError "inhomogeneous shape" None)
  /\ exists x, predict_my_generator ["CO"; "CC"] 2 (-1) 0 = Yield x 1%nat.
Proof. split; [vm_compute; reflexivity | eexists; vm_compute; reflexivity]. Qed.

(** On a list without an empty molecule the extractor takes exactly
    [ceil(n / 128)] feeder steps, the groups of 128 in order, and hands the
    model exactly the encoded molecules, in input order. *)
Lemma feeder_steps_groups (gen_mol : list string) :
  Forall (fun smiles => smiles <> EmptyString) gen_mol ->
  let xs := map (fun i => map encoded (take 128 (drop (i * 128) gen_mol)))
              (seq 0 ((length gen_mol + 128 - 1) / 128)) in
  feeder_steps gen_mol = Ok xs
  /\ length xs = ((length gen_mol + 128 - 1) / 128)%nat
  /\ concat xs = map encoded gen_mol.
Proof.
  intros Hne xs. unfold feeder_steps, num_batches.
  destruct (Nat.eqb_spec 128 0) as [|_]; [lia|].
  change (Ok ((length gen_mol + 128 - 1) / 128)%nat
          ≫= (fun steps => drive (predict_my_generator gen_mol 128 350) steps 0))
    with (drive (predict_my_generator gen_mol 128 350)
            ((length gen_mol + 128 - 1) / 128) 0).
  rewrite (drive_groups gen_mol 128 ltac:(lia) Hne) by lia.
  split; [reflexivity|]. split.
  - unfold xs. now rewrite length_map, length_seq.
  - unfold xs.
    rewrite <- (map_map (fun i => take 128 (drop (i * 128) gen_mol)) (map encoded)).
    rewrite <- concat_map. rewrite chunks_concat.
    change (drop (0 * 128) gen_mol) with gen_mol.
    rewrite take_ge; [reflexivity|].
    destruct (ceil_div_bounds (length gen_mol) 128 ltac:(lia)) as [Hle _].
    exact Hle.
Qed.

(** The extractor's answer is the model's outputs over the feeder steps. *)
Lemma get_predictions_feeder (embedding : Type)
    (predict_on_batch : batch -> list embedding) (gen_mol : list string) :
  get_predictions embedding predict_on_batch gen_mol
  = xs ← feeder_steps gen_mol; Ok (concat (map predict_on_batch xs)).
Proof.
  unfold get_predictions, predict_generator, feeder_steps.
  destruct (num_batches (length gen_mol) 128); reflexivity.
Qed.

Lemma get_predictions_rowwise (embedding : Type)
    (embed : list (list float) -> embedding) (gen_mol : list string) :
  Forall (fun smiles => smiles <> EmptyString) gen_mol ->
  get_predictions embedding (map embed) gen_mol
  = Ok (map (fun smiles => embed (encoded smiles)) gen_mol).
Proof.
  intros Hne.
  destruct (feeder_steps_groups gen_mol Hne) as (Hrun & _ & Hcat).
  rewrite get_predictions_feeder, Hrun.
  unfold mbind, result_bind. cbv beta iota. f_equal.
  rewrite <- concat_map, Hcat. now rewrite map_map.
Qed.

(** Scenario 5: 150 molecules are consumed in 2 feeder steps of 128 and
    22 molecules, and give 150 vectors. *)
Example feeder_steps_150 :
  let gen_mol := replicate 150 "CCO" in
  option_map (map length)
    (match feeder_steps gen_mol with Ok xs => Some xs | _ => None end)
  = Some [128; 22]%nat
  /\ forall (embedding : Type) (embed : list (list float) -> embedding),
       option_map length
         (match get_predictions embedding (map embed) gen_mol with
          | Ok v => Some v | _ => None end)
       = Some 150%nat.
Proof.
  intros gen_mol.
  assert (Hne : Forall (fun smiles => smiles <> EmptyString) gen_mol).
  { apply Forall_replicate. discriminate. }
  split.
  - destruct (feeder_steps_groups gen_mol Hne) as (-> & _ & _).
    simpl option_map. f_equal.
  - intros embedding embed. rewrite (get_predictions_rowwise _ _ _ Hne).
    cbn [option_map]. now rewrite length_map.
Qed.

(** C7.  On a list without an empty molecule the extractor returns one
    vector per molecule, in input order, from exactly [ceil(n / 128)] feeder
    steps.  One empty molecule is enough for it to return no vector at all:
    the first feeder step raises the [UnboundLocalError] of [get_one_hot],
    whatever the model is. *)
Theorem get_predictions_vectors (embedding : Type)
    (embed : list (list float) -> embedding) (gen_mol : list string) :
  (forall predict_on_batch : batch -> list embedding,
     get_predictions embedding predict_on_batch [EmptyString]
     = Raise (UnboundLocalError "sym"))
  /\ (Forall (fun smiles => smiles <> EmptyString) gen_mol ->
      (exists xs, feeder_steps gen_mol = Ok xs
                  /\ length xs = ((length gen_mol + 128 - 1) / 128)%nat
                  /\ concat xs = map encoded gen_mol)
      /\ get_predictions embedding (map embed) gen_mol
         = Ok (map (fun smiles => embed (encoded smiles)) gen_mol)).
Proof.
  split; [reflexivity|]. intros Hne. split.
  - destruct (feeder_steps_groups gen_mol Hne) as (Hrun & Hlen & Hcat). eauto.
  - now apply get_predictions_rowwise.
Qed.

Lemma get_predictions_vectors_witness :
  Forall (fun smiles => smiles <> EmptyString) ["CCO"; "c1ccccc1"]
  /\ get_predictions (list (list float)) (map id) ["CCO"; "c1ccccc1"]
     = Ok [encoded "CCO"; encoded "c1ccccc1"].
Proof.
  assert (Hne : Forall (fun smiles => smiles <> EmptyString) ["CCO"; "c1ccccc1"]).
  { repeat constructor; discriminate. }
  split; [exact Hne|].
  exact (proj2 (proj2 (get_predictions_vectors (list (list float)) id
                         ["CCO"; "c1ccccc1"]) Hne)).
Defined.

(** ** The tensor is the one-hot encoding of the tokens *)

Lemma index_from_lookup (sym : string) (l : list string) (k0 k : nat) :
  index_from sym l k0 = Ok k ->
  exists k', k = (k0 + k')%nat /\ l !! k' = Some sym.
Proof.
  revert k0. induction l as [|x l IH]; intros k0 H; simpl in H; [discriminate|].
  destruct (String.eqb_spec sym x) as [->|Hne].
  - injection H as <-. exists 0%nat. split; [lia | reflexivity].
  - destruct (IH (S k0) H) as (k' & -> & Hk'). exists (S k'). split; [lia | exact Hk'].
Qed.

Lemma column_index_spec (sym : string) :
  column_of sym = Ok (column_index sym)
  /\ (column_index sym < 35)%nat
  /\ one_hot !! column_index sym = Some (known sym).
Proof.
  destruct (column_of_spec sym) as (k & Hk & Hlt & _ & Hout).
  unfold column_index. rewrite Hk. split; [reflexivity|]. split; [exact Hlt|].
  unfold known. unfold column_of in Hk.
  destruct (contains sym one_hot).
  - destruct (index_from_lookup _ _ _ _ Hk) as (k' & -> & Hk'). exact Hk'.
  - now rewrite (Hout eq_refl).
Qed.

Lemma decode_hot_row (k : nat) :
  (k < 35)%nat -> decode_row (hot_row k) = one_hot !! k.
Proof.
  intros Hk.
  do 35 (destruct k as [|k]; [vm_compute; reflexivity|]). lia.
Qed.

Lemma insert_blank {A : Type} (l : list A) (m : nat) (x z : A) :
  <[length l := x]> (l ++ replicate (S m) z) = (l ++ [x]) ++ replicate m z.
Proof.
  rewrite insert_app_r_alt by lia. rewrite Nat.sub_diag. simpl.
  now rewrite <- app_assoc.
Qed.

Lemma lookup_blank {A : Type} (l : list A) (m : nat) (z : A) :
  (l ++ replicate (S m) z) !! length l = Some z.
Proof. rewrite lookup_app_r by lia. now rewrite Nat.sub_diag. Qed.

Section Tokens.
Variables (p : string) (n : nat) (pad_len : Z) (rows : nat).
Hypothesis p_length : String.length p = S n.
Hypothesis p_last : String.get n p = Some "."%char.

Lemma scan_tokens (fuel : nat) :
  forall (i j : nat) (sym : option string) (cols : list nat),
    (i < n)%nat -> room n pad_len rows i j -> length cols = j ->
    (rows < fuel + j)%nat ->
    let ts := tokens fuel p pad_len i j sym in
    scan fuel p pad_len i j sym
      (map hot_row cols ++ replicate (rows - j) zero_row)
    = Ok (map hot_row (cols ++ map column_index ts)
            ++ hot_row 34 :: replicate (rows - S (j + length ts)) zero_row)
    /\ ts <> [] /\ (j + length ts < rows)%nat.
Proof.
  induction fuel as [|fuel IH]; intros i j sym cols Hi Hroom Hcols Hfuel.
  { pose proof (room_lt p n pad_len rows p_length i j Hi Hroom). lia. }
  pose proof (room_lt p n pad_len rows p_length i j Hi Hroom) as Hj.
  cbn [scan tokens].
  destruct (try_block_inside p n p_length p_last i sym Hi)
    as (i1 & s & -> & Hi1 & _).
  destruct (column_index_spec s) as (Hk & Hklt & _). rewrite Hk.
  unfold mbind at 1, result_bind at 1. cbv beta iota.
  assert (Hlen : length (map hot_row cols) = j) by now rewrite length_map.
  replace (rows - j)%nat with (S (rows - S j)) by lia.
  pose proof (lookup_blank (map hot_row cols) (rows - S j) zero_row) as Hrow.
  pose proof (insert_blank (map hot_row cols) (rows - S j)
                (<[column_index s := 1%float]> zero_row) zero_row) as Hins.
  rewrite Hlen in Hrow, Hins.
  rewrite (setitem_Ok _ j (column_index s) zero_row Hrow) by (simpl; lia).
  unfold mbind at 1, result_bind at 1. cbv beta iota.
  rewrite Hins. clear Hrow Hins.
  change (map hot_row cols ++ [<[column_index s:=1%float]> zero_row])
    with (map hot_row cols ++ map hot_row [column_index s]).
  rewrite <- map_app.
  destruct (stop_test_value p n pad_len p_length i1 (S j))
    as (c & Hc & ->); [lia|].
  unfold mbind at 1, result_bind at 1. cbv beta iota.
  assert (Hlen1 : length (map hot_row (cols ++ [column_index s])) = S j)
    by (rewrite length_map, length_app; simpl; lia).
  destruct (Ascii.eqb c "." || ((Z.of_nat (S j) >=? pad_len - 1) && (pad_len >? 0)))%bool
    eqn:Hstop.
  - rewrite index_dot.
    unfold mbind at 1, result_bind at 1. cbv beta iota.
    replace (rows - S j)%nat with (S (rows - S (S j))) by lia.
    pose proof (lookup_blank (map hot_row (cols ++ [column_index s]))
                  (rows - S (S j)) zero_row) as Hrow.
    pose proof (insert_blank (map hot_row (cols ++ [column_index s]))
                  (rows - S (S j)) (<[34%nat := 1%float]> zero_row) zero_row)
      as Hins.
    rewrite Hlen1 in Hrow, Hins.
    rewrite (setitem_Ok _ (S j) 34 zero_row Hrow) by (simpl; lia).
    rewrite Hins. rewrite <- app_assoc.
    simpl length. replace (j + 1)%nat with (S j) by lia.
    split; [reflexivity|]. split; [discriminate | lia].
  - apply orb_false_iff in Hstop as [Hc' Hpad].
    apply Ascii.eqb_neq in Hc'.
    assert (Hi1n : (i1 < n)%nat).
    { destruct (Nat.eq_dec i1 n) as [->|]; [|lia].
      rewrite p_last in Hc. congruence. }
    assert (Hroom1 : room n pad_len rows i1 (S j)).
    { unfold room in *. apply andb_false_iff in Hpad.
      destruct Hroom as [(Hn & Hr & Hji)|(Hp & Hr & Hjp)]; [left; lia|right].
      split; [lia|]. split; [assumption|].
      destruct Hpad as [Hge|Hgt].
      - rewrite Z.geb_leb in Hge. apply Z.leb_gt in Hge. lia.
      - rewrite Z.gtb_ltb in Hgt. apply Z.ltb_ge in Hgt. lia. }
    destruct (IH i1 (S j) (Some s) (cols ++ [column_index s]) Hi1n Hroom1)
      as (Hrun & Hne & Hlt).
    + rewrite length_app. simpl. lia.
    + lia.
    + rewrite Hrun. rewrite <- app_assoc. simpl length.
      replace (j + S (length (tokens fuel p pad_len i1 (S j) (Some s))))%nat
        with (S j + length (tokens fuel p pad_len i1 (S j) (Some s)))%nat by lia.
      split; [reflexivity|]. split; [discriminate | lia].
Qed.
End Tokens.

Lemma zeros_blank (rows : nat) :
  zeros rows (length one_hot) = map hot_row [] ++ replicate (rows - 0) zero_row.
Proof. now rewrite Nat.sub_0_r. Qed.

Lemma rows_of_room (smiles : string) (pad_len : Z) :
  smiles <> EmptyString -> pad_len < 0 \/ 2 <= pad_len ->
  room (String.length smiles) pad_len (rows_of (smiles +:+ ".") pad_len) 0 0.
Proof.
  intros Hne Hpad. unfold room, rows_of. rewrite length_sentinel.
  destruct (Z.ltb_spec pad_len 0); [left | right]; lia.
Qed.

Lemma get_one_hot_tokens_form (smiles : string) (pad_len : Z) :
  smiles <> EmptyString -> pad_len < 0 \/ 2 <= pad_len ->
  get_one_hot smiles pad_len
  = Ok (map (fun sym => hot_row (column_index sym)) (tokens_of smiles pad_len)
          ++ hot_row 34
          :: replicate (rows_of (smiles +:+ ".") pad_len
                        - S (length (tokens_of smiles pad_len))) zero_row)
  /\ tokens_of smiles pad_len <> []
  /\ (length (tokens_of smiles pad_len) < rows_of (smiles +:+ ".") pad_len)%nat.
Proof.
  intros Hne Hpad. unfold get_one_hot. rewrite zeros_blank.
  destruct (scan_tokens (smiles +:+ ".") (String.length smiles) pad_len
              (rows_of (smiles +:+ ".") pad_len)
              (length_sentinel smiles) (get_sentinel smiles)
              (S (rows_of (smiles +:+ ".") pad_len))
              0 0 None [] (nonempty_length smiles Hne)
              (rows_of_room smiles pad_len Hne Hpad) eq_refl ltac:(lia))
    as (Hrun & Hts & Hlen).
  rewrite Hrun. simpl app. rewrite map_map. auto.
Qed.



Lemma decode_encoding (ts : list string) (m : nat) :
  map decode_row
    (map (fun sym => hot_row (column_index sym)) ts
       ++ hot_row 34 :: replicate m zero_row)
  = map (fun sym => Some (known sym)) ts ++ Some "." :: replicate m None.
Proof.
  rewrite map_app, map_map. simpl map. f_equal.
  - apply map_ext. intros sym.
    destruct (column_index_spec sym) as (_ & Hlt & Hk).
    now rewrite decode_hot_row.
  - rewrite (decode_hot_row 34) by lia.
    change (one_hot !! 34%nat) with (Some ".").
    f_equal. induction m as [|m IH]; [reflexivity|].
    simpl. now rewrite IH.
Qed.

(** X2.  Decoding round trip: reading the tensor back row by row gives the
    tokens of the scan, a token outside the vocabulary as the wildcard "X",
    then the terminator ".", then nothing for the rows of padding. *)
Theorem get_one_hot_decode (smiles : string) (pad_len : Z) :
  smiles <> EmptyString -> pad_len < 0 \/ 2 <= pad_len ->
  exists v,
    get_one_hot smiles pad_len = Ok v
    /\ map decode_row v
       = map (fun sym => Some (known sym)) (tokens_of smiles pad_len)
         ++ Some "."
         :: replicate (rows_of (smiles +:+ ".") pad_len
                       - S (length (tokens_of smiles pad_len))) None.
Proof.
  intros Hne Hpad.
  destruct (get_one_hot_tokens_form smiles pad_len Hne Hpad) as (Hrun & _).
  eexists. split; [exact Hrun | apply decode_encoding].
Qed.

Lemma get_one_hot_decode_witness :
  exists v,
    get_one_hot "Cl?" 5 = Ok v
    /\ map decode_row v = [Some "Cl"; Some "X"; Some "."; None; None].
Proof.
  exact (get_one_hot_decode "Cl?" 5 ltac:(discriminate) ltac:(lia)).
Defined.

(** ** Strings of one-character tokens *)

Lemma get_chars (s : string) (k : nat) :
  String.get k s = list_ascii_of_string s !! k.
Proof.
  revert k. induction s as [|c s IH]; intros k; [now destruct k|].
  destruct k as [|k]; [reflexivity | apply IH].
Qed.

Lemma length_chars (s : string) :
  length (list_ascii_of_string s) = String.length s.
Proof. induction s as [|c s IH]; simpl; [reflexivity | now rewrite IH]. Qed.

Section Plain.
Variables (smiles : string) (pad_len : Z).
Hypothesis smiles_nonempty : smiles <> EmptyString.
Hypothesis smiles_plain : plain smiles.
Hypothesis pad_len_range : pad_len < 0 \/ 2 <= pad_len.

Lemma encoded_length_bounds :
  (0 < encoded_length smiles pad_len <= String.length smiles)%nat.
Proof.
  pose proof (nonempty_length smiles smiles_nonempty).
  unfold encoded_length. destruct (Z.ltb_spec pad_len 0); lia.
Qed.

Lemma plain_char (k : nat) :
  (k < String.length smiles)%nat ->
  exists c, String.get k (smiles +:+ ".") = Some c
            /\ list_ascii_of_string smiles !! k = Some c
            /\ second_letter c = false /\ c <> "."%char.
Proof.
  intros Hk. rewrite get_app_l by assumption.
  destruct (get_lt_Some smiles k Hk) as [c Hc]. exists c.
  split; [exact Hc|]. rewrite get_chars in Hc. split; [exact Hc|].
  exact (Forall_lookup_1 _ _ _ _ smiles_plain Hc).
Qed.

(** The character after position [i] is no second letter: it is a plain
    character or the sentinel. *)
Lemma plain_next (i : nat) :
  (i < String.length smiles)%nat ->
  exists c, String.get (i + 1) (smiles +:+ ".") = Some c
            /\ second_letter c = false
            /\ (Ascii.eqb c "." = Nat.eqb (S i) (String.length smiles)).
Proof.
  intros Hi.
  destruct (Nat.eq_dec (i + 1)%nat (String.length smiles)) as [E|E].
  - exists "."%char. rewrite E, get_sentinel.
    split; [reflexivity|]. split; [reflexivity|].
    symmetry. apply Nat.eqb_eq. lia.
  - destruct (plain_char (i + 1)%nat) as (c & Hc & _ & Hs & Hd); [lia|].
    exists c. split; [exact Hc|]. split; [exact Hs|].
    apply Ascii.eqb_neq in Hd. rewrite Hd. symmetry. apply Nat.eqb_neq. lia.
Qed.

Lemma tokens_plain (fuel : nat) :
  forall (i : nat) (sym : option string),
    (i < encoded_length smiles pad_len)%nat ->
    (encoded_length smiles pad_len - i <= fuel)%nat ->
    tokens fuel (smiles +:+ ".") pad_len i i sym
    = map (fun c => String c EmptyString)
        (take (encoded_length smiles pad_len - i)
           (drop i (list_ascii_of_string smiles))).
Proof.
  pose proof encoded_length_bounds as Hm.
  induction fuel as [|fuel IH]; intros i sym Hi Hfuel; [lia|].
  cbn [tokens]. unfold try_block.
  destruct (plain_next i) as (c' & Hc' & Hs' & Hdot); [lia|].
  destruct (plain_char i) as (c & Hc & Hchars & _); [lia|].
  rewrite Hc', Hs', Hc.
  rewrite (drop_S _ _ _ Hchars).
  replace (encoded_length smiles pad_len - i)%nat
    with (S (encoded_length smiles pad_len - S i)) by lia.
  cbn [take map]. f_equal.
  unfold stop_test. replace (i + 1)%nat with (S i) in * by lia.
  rewrite Hc', Hdot.
  destruct (Nat.eq_dec (S i) (encoded_length smiles pad_len)) as [E|E].
  - assert (Hstop : (Nat.eqb (S i) (String.length smiles)
                     || ((Z.of_nat (S i) >=? pad_len - 1) && (pad_len >? 0)))%bool
                    = true).
    { unfold encoded_length in E.
      destruct (Z.ltb_spec pad_len 0).
      - rewrite (proj2 (Nat.eqb_eq _ _) E). reflexivity.
      - destruct (Nat.eqb_spec (S i) (String.length smiles)); [reflexivity|].
        simpl. apply andb_true_iff. split.
        + rewrite Z.geb_leb. apply Z.leb_le. lia.
        + rewrite Z.gtb_ltb. apply Z.ltb_lt. lia. }
    rewrite Hstop. rewrite E, Nat.sub_diag. reflexivity.
  - assert (Hstop : (Nat.eqb (S i) (String.length smiles)
                     || ((Z.of_nat (S i) >=? pad_len - 1) && (pad_len >? 0)))%bool
                    = false).
    { unfold encoded_length in E, Hi, Hm.
      apply orb_false_iff. split.
      - apply Nat.eqb_neq. destruct (Z.ltb_spec pad_len 0); lia.
      - apply andb_false_iff. destruct (Z.ltb_spec pad_len 0).
        + right. rewrite Z.gtb_ltb. apply Z.ltb_ge. lia.
        + left. rewrite Z.geb_leb. apply Z.leb_gt. lia. }
    rewrite Hstop. apply IH; lia.
Qed.

Lemma tokens_of_plain :
  tokens_of smiles pad_len
  = map (fun c => String c EmptyString)
      (take (encoded_length smiles pad_len) (list_ascii_of_string smiles)).
Proof.
  pose proof encoded_length_bounds as Hm.
  unfold tokens_of. rewrite tokens_plain.
  - now rewrite Nat.sub_0_r.
  - lia.
  - unfold rows_of, encoded_length in *. rewrite length_sentinel.
    destruct (Z.ltb_spec pad_len 0); lia.
Qed.
End Plain.

(** X3.  Round trip on a string of one-character tokens.  When no
    character of a non-empty string is 'r', 'i', 'l' or '.', the tensor reads
    back as the characters themselves, one per row and "X" for a character
    outside the vocabulary, then ".".  Without padding that is the whole
    string; with [pad_len >= 2] it is the first [pad_len - 1] characters at
    most, and the rows that are left decode to nothing. *)
Theorem get_one_hot_plain_round_trip (smiles : string) (pad_len : Z) :
  smiles <> EmptyString -> plain smiles -> pad_len < 0 \/ 2 <= pad_len ->
  exists v,
    get_one_hot smiles pad_len = Ok v
    /\ map decode_row v
       = map (fun c => Some (known (String c EmptyString)))
           (take (encoded_length smiles pad_len) (list_ascii_of_string smiles))
         ++ Some "."
         :: replicate (rows_of (smiles +:+ ".") pad_len
                       - S (encoded_length smiles pad_len)) None.
Proof.
  intros Hne Hplain Hpad.
  destruct (get_one_hot_tokens_form smiles pad_len Hne Hpad) as (Hrun & _).
  eexists. split; [exact Hrun|]. rewrite decode_encoding.
  rewrite (tokens_of_plain smiles pad_len Hne Hplain Hpad).
  rewrite map_map, length_map, length_take, length_chars.
  pose proof (encoded_length_bounds smiles pad_len Hne Hpad) as Hm.
  now rewrite Nat.min_l by lia.
Qed.

Lemma get_one_hot_plain_round_trip_witness :
  exists v,
    get_one_hot "C(=O)?N" 4 = Ok v
    /\ map decode_row v = [Some "C"; Some "("; Some "="; Some "."].
Proof.
  refine (get_one_hot_plain_round_trip "C(=O)?N" 4 ltac:(discriminate) _
            ltac:(lia)).
  repeat constructor; discriminate.
Defined.

(** ** Padding that is too short, and how far the scan reads *)

(** X4.  [pad_len] 0 and 1 leave no room for a token and the terminator:
    on every non-empty string the call raises [IndexError], at the first
    token's row for 0 and at the terminator's row for 1. *)
Theorem get_one_hot_pad_too_short (smiles : string) (pad_len : Z) :
  smiles <> EmptyString -> 0 <= pad_len < 2 ->
  get_one_hot smiles pad_len = Raise IndexError.
Proof.
  intros Hne Hpad. unfold get_one_hot.
  assert (Hrows : rows_of (smiles +:+ ".") pad_len = Z.to_nat pad_len).
  { unfold rows_of. destruct (Z.ltb_spec pad_len 0); [lia | reflexivity]. }
  rewrite Hrows.
  destruct (try_block_inside (smiles +:+ ".") (String.length smiles)
              (length_sentinel smiles) (get_sentinel smiles) 0 None
              (nonempty_length smiles Hne)) as (i1 & s & Htry & Hi1 & _).
  destruct (column_index_spec s) as (Hk & Hklt & _).
  assert (Hcases : pad_len = 0 \/ pad_len = 1) by lia.
  destruct Hcases as [-> | ->].
  - cbn [Z.to_nat scan]. rewrite Htry, Hk. reflexivity.
  - change (Z.to_nat 1) with 1%nat. cbn [scan]. rewrite Htry, Hk.
    unfold mbind at 1, result_bind at 1. cbv beta iota.
    change (zeros 1 (length one_hot)) with [zero_row].
    rewrite (setitem_Ok [zero_row] 0 (column_index s) zero_row eq_refl)
      by (simpl; lia).
    unfold mbind at 1, result_bind at 1. cbv beta iota.
    destruct (stop_test_value (smiles +:+ ".") (String.length smiles) 1
                (length_sentinel smiles) i1 1) as (c & _ & ->); [lia|].
    unfold mbind at 1, result_bind at 1. cbv beta iota.
    rewrite orb_true_r. reflexivity.
Qed.

Lemma get_one_hot_pad_too_short_witness :
  get_one_hot "CCO" 1 = Raise IndexError.
Proof.
  exact (get_one_hot_pad_too_short "CCO" 1 ltac:(discriminate) ltac:(lia)).
Defined.

Lemma result_bind_ext {A B : Type} (r : result A) (f g : A -> result B) :
  (forall x, f x = g x) -> r ≫= f = r ≫= g.
Proof. intros H. destruct r; [apply H | reflexivity | reflexivity]. Qed.

Section Window.
Variables (p a b : string) (pad_len : Z).
Hypothesis pad_len_ge : 2 <= pad_len.
Hypothesis p_long : 2 * pad_len - 1 <= Z.of_nat (String.length p).

Lemma try_block_window (x : string) (i : nat) (sym : option string) :
  (Z.of_nat i + 2 <= Z.of_nat (String.length p)) ->
  try_block (p +:+ x) i sym = try_block p i sym
  /\ (fst (try_block p i sym) <= i + 2)%nat.
Proof.
  intros Hi. unfold try_block. rewrite !get_app_l by lia.
  destruct (get_lt_Some p (i + 1)) as [c ->]; [lia|].
  destruct (get_lt_Some p i) as [d ->]; [lia|].
  rewrite substring_app_l by lia.
  destruct (second_letter c); simpl; split; (reflexivity || lia).
Qed.

Lemma scan_window (fuel : nat) :
  forall (i j : nat) (sym : option string) (vec : list (list float)),
    (i <= 2 * j)%nat -> Z.of_nat j < pad_len - 1 ->
    scan fuel (p +:+ a) pad_len i j sym vec
    = scan fuel (p +:+ b) pad_len i j sym vec.
Proof.
  induction fuel as [|fuel IH]; intros i j sym vec Hi Hj; [reflexivity|].
  cbn [scan].
  destruct (try_block_window a i sym ltac:(lia)) as [-> Hi1].
  destruct (try_block_window b i sym ltac:(lia)) as [-> _].
  destruct (try_block p i sym) as [i1 [s|]]; [|reflexivity].
  simpl in Hi1.
  apply result_bind_ext. intros k. apply result_bind_ext. intros vec1.
  unfold stop_test. rewrite !get_app_l by lia.
  destruct (String.get i1 p) as [c|]; [|reflexivity].
  destruct (Ascii.eqb c "." || ((Z.of_nat (S j) >=? pad_len - 1) && (pad_len >? 0)))%bool
    eqn:Hstop; [reflexivity|].
  apply orb_false_iff in Hstop as [_ Hpad].
  apply andb_false_iff in Hpad.
  change (scan fuel (p +:+ a) pad_len i1 (S j) (Some s) vec1
          = scan fuel (p +:+ b) pad_len i1 (S j) (Some s) vec1).
  apply IH; [lia|].
  destruct Hpad as [Hge|Hgt].
  - rewrite Z.geb_leb in Hge. apply Z.leb_gt in Hge. lia.
  - rewrite Z.gtb_ltb in Hgt. apply Z.ltb_ge in Hgt. lia.
Qed.
End Window.

(** X5.  With [pad_len >= 2] the scan reads the first [2 * pad_len - 1]
    characters at most: two strings that agree on a prefix of that length
    are encoded alike, whatever follows. *)
Theorem get_one_hot_window (p a b : string) (pad_len : Z) :
  2 <= pad_len -> 2 * pad_len - 1 <= Z.of_nat (String.length p) ->
  get_one_hot (p +:+ a) pad_len = get_one_hot (p +:+ b) pad_len.
Proof.
  intros Hpad Hp. unfold get_one_hot.
  assert (Hrows : forall s, rows_of s pad_len = Z.to_nat pad_len).
  { intros s. unfold rows_of. destruct (Z.ltb_spec pad_len 0); [lia | reflexivity]. }
  rewrite !Hrows, !app_string_assoc.
  apply scan_window; [assumption | assumption | lia | lia].
Qed.

Lemma get_one_hot_window_witness :
  get_one_hot ("CCO" +:+ "ClBr") 2 = get_one_hot ("CCO" +:+ "N") 2.
Proof.
  exact (get_one_hot_window "CCO" "ClBr" "N" 2 ltac:(lia) ltac:(simpl; lia)).
Defined.

(** ** Shape and content of the batches *)

Lemma hot_row_cells (k : nat) :
  length (hot_row k) = 35%nat
  /\ Forall (fun c => c = 0%float \/ c = 1%float) (hot_row k).
Proof.
  unfold hot_row, zero_row. split.
  - now rewrite length_insert, length_replicate.
  - apply Forall_insert; [|now right].
    apply Forall_replicate. now left.
Qed.

(** The tensor of a non-empty string with [pad_len >= 2]: [pad_len] rows
    of 35 cells, each 0 or 1. *)
Lemma get_one_hot_cells (smiles : string) (pad_len : Z) :
  smiles <> EmptyString -> 2 <= pad_len ->
  exists v, get_one_hot smiles pad_len = Ok v
            /\ length v = Z.to_nat pad_len
            /\ Forall (fun row =>
                         length row = 35%nat
                         /\ Forall (fun c => c = 0%float \/ c = 1%float) row) v.
Proof.
  intros Hne Hpad.
  destruct (get_one_hot_padded smiles pad_len Hne Hpad) as (v & Hv & Hlen & _).
  exists v. split; [exact Hv|]. split; [exact Hlen|].
  destruct (get_one_hot_tokens_form smiles pad_len Hne (or_intror Hpad))
    as (Hrun & _).
  rewrite Hv in Hrun. injection Hrun as ->.
  apply Forall_app. split; [|apply Forall_cons; split].
  - apply Forall_forall. intros row Hin. apply list_elem_of_In in Hin.
    apply in_map_iff in Hin as (sym & <- & _). apply hot_row_cells.
  - apply hot_row_cells.
  - apply Forall_replicate. split; [reflexivity|].
    apply Forall_replicate. now left.
Qed.

Lemma encoded_cells (smiles : string) :
  smiles <> EmptyString ->
  length (encoded smiles) = 350%nat
  /\ Forall (fun row =>
               length row = 35%nat
               /\ Forall (fun c => c = 0%float \/ c = (1 / 35)%float) row)
       (encoded smiles).
Proof.
  intros Hne. unfold encoded.
  destruct (get_one_hot_cells smiles 350 Hne ltac:(lia)) as (v & -> & Hlen & Hv).
  rewrite length_map. split; [exact Hlen|].
  apply Forall_forall. intros row Hin. apply list_elem_of_In in Hin.
  apply in_map_iff in Hin as (row0 & <- & Hin0).
  apply list_elem_of_In in Hin0.
  destruct (proj1 (Forall_forall _ _) Hv row0 Hin0) as [Hl Hc].
  rewrite length_map. split; [exact Hl|].
  apply Forall_forall. intros c Hin. apply list_elem_of_In in Hin.
  apply in_map_iff in Hin as (c0 & <- & Hin0').
  apply list_elem_of_In in Hin0'.
  destruct (proj1 (Forall_forall _ _) Hc c0 Hin0') as [-> | ->];
    [left | right]; reflexivity.
Qed.

(** X6.  Shape of a batch.  On a list without an empty molecule, resuming
    the generator inside a pass yields a batch of [batch_size] molecules, or
    of the molecules that are left when they are fewer, never an empty one;
    each molecule is 350 rows of 35 cells. *)
Theorem predict_my_generator_batch_shape (smiles_list : list string)
    (batch_size j : nat) :
  (0 < batch_size)%nat ->
  Forall (fun smiles => smiles <> EmptyString) smiles_list ->
  (j < (length smiles_list + batch_size - 1) / batch_size)%nat ->
  exists x,
    predict_my_generator smiles_list batch_size 350 j = Yield x (S j)
    /\ length x = Nat.min batch_size (length smiles_list - j * batch_size)
    /\ (0 < length x)%nat
    /\ Forall (fun t => length t = 350%nat
                        /\ Forall (fun row => length row = 35%nat) t) x.
Proof.
  intros Hbs Hne Hj.
  destruct (ceil_div_bounds (length smiles_list) batch_size Hbs) as [_ Hlt].
  specialize (Hlt j Hj).
  eexists. split; [apply (generator_yields smiles_list batch_size Hbs Hne j Hj)|].
  rewrite length_map, length_take, length_drop.
  split; [reflexivity|]. split; [lia|].
  apply Forall_forall. intros t Hin. apply list_elem_of_In in Hin.
  apply in_map_iff in Hin as (smiles & <- & Hin).
  assert (Hs : smiles <> EmptyString).
  { apply list_elem_of_In in Hin. apply elem_of_take in Hin as (i & Hi & _).
    rewrite lookup_drop in Hi.
    exact (Forall_lookup_1 _ _ _ _ Hne Hi). }
  destruct (encoded_cells smiles Hs) as [Hl Hrows]. split; [exact Hl|].
  eapply Forall_impl; [exact Hrows|]. intros row [Hr _]. exact Hr.
Qed.

Lemma predict_my_generator_batch_shape_witness :
  exists x,
    predict_my_generator ["C"; "CC"; "CCO"] 2 350 1 = Yield x 2
    /\ length x = 1%nat.
Proof.
  destruct (predict_my_generator_batch_shape ["C"; "CC"; "CCO"] 2 1)
    as (x & Hx & Hlen & _).
  - lia.
  - repeat constructor; discriminate.
  - vm_compute. lia.
  - exists x. split; [exact Hx | exact Hlen].
Defined.

(** X7.  Content of a batch.  Every cell of every batch the generator
    yields inside a pass is 0 or 1/35: the one-hot cells divided by 35.0. *)
Theorem predict_my_generator_batch_cells (smiles_list : list string)
    (batch_size j : nat) (x : batch) (next : nat) :
  (0 < batch_size)%nat ->
  Forall (fun smiles => smiles <> EmptyString) smiles_list ->
  (j < (length smiles_list + batch_size - 1) / batch_size)%nat ->
  predict_my_generator smiles_list batch_size 350 j = Yield x next ->
  Forall (Forall (Forall (fun c => c = 0%float \/ c = (1 / 35)%float))) x.
Proof.
  intros Hbs Hne Hj Hx.
  rewrite (generator_yields smiles_list batch_size Hbs Hne j Hj) in Hx.
  injection Hx as <- _.
  apply Forall_forall. intros t Hin. apply list_elem_of_In in Hin.
  apply in_map_iff in Hin as (smiles & <- & Hin).
  assert (Hs : smiles <> EmptyString).
  { apply list_elem_of_In in Hin. apply elem_of_take in Hin as (i & Hi & _).
    rewrite lookup_drop in Hi.
    exact (Forall_lookup_1 _ _ _ _ Hne Hi). }
  destruct (encoded_cells smiles Hs) as [_ Hrows].
  eapply Forall_impl; [exact Hrows|]. intros row [_ Hc]. exact Hc.
Qed.

Lemma predict_my_generator_batch_cells_witness :
  Forall (Forall (Forall (fun c => c = 0%float \/ c = (1 / 35)%float)))
    [encoded "C"; encoded "CC"].
Proof.
  apply (predict_my_generator_batch_cells ["C"; "CC"; "CCO"] 2 0 _ 1).
  - lia.
  - repeat constructor; discriminate.
  - vm_compute. lia.
  - apply generator_yields; [lia | repeat constructor; discriminate | vm_compute; lia].
Defined.

(** ** The generator starts over *)

(** After the last batch of a pass the generator is where it started. *)
Lemma predict_my_generator_restart (smiles_list : list string)
    (batch_size : nat) (pad_len : Z) :
  (0 < batch_size)%nat ->
  predict_my_generator smiles_list batch_size pad_len
    ((length smiles_list + batch_size - 1) / batch_size)
  = predict_my_generator smiles_list batch_size pad_len 0.
Proof.
  intros Hbs. unfold predict_my_generator, num_batches.
  destruct (Nat.eqb_spec batch_size 0) as [|_]; [lia|].
  rewrite Nat.ltb_irrefl.
  now destruct (0 <? (length smiles_list + batch_size - 1) / batch_size)%nat.
Qed.

Section Restart.
Variables (smiles_list : list string) (batch_size : nat).
Hypothesis batch_size_pos : (0 < batch_size)%nat.
Hypothesis molecules_nonempty :
  Forall (fun smiles => smiles <> EmptyString) smiles_list.

Lemma drive_append (k m : nat) :
  forall j : nat,
    (j + k <= (length smiles_list + batch_size - 1) / batch_size)%nat ->
    drive (predict_my_generator smiles_list batch_size 350) (k + m) j
    = ys ← drive (predict_my_generator smiles_list batch_size 350) m (j + k);
      Ok (map (fun i => map encoded
                          (take batch_size (drop (i * batch_size) smiles_list)))
            (seq j k) ++ ys).
Proof.
  induction k as [|k IH]; intros j Hj.
  - rewrite Nat.add_0_r. simpl.
    now destruct (drive (predict_my_generator smiles_list batch_size 350) m j).
  - cbn [Nat.add drive].
    rewrite (generator_yields smiles_list batch_size batch_size_pos
               molecules_nonempty j) by lia.
    rewrite IH by lia. replace (S j + k)%nat with (j + S k)%nat by lia.
    now destruct (drive (predict_my_generator smiles_list batch_size 350) m
                    (j + S k)).
Qed.

Lemma drive_restart (m : nat) :
  drive (predict_my_generator smiles_list batch_size 350) m
    ((length smiles_list + batch_size - 1) / batch_size)
  = drive (predict_my_generator smiles_list batch_size 350) m 0.
Proof.
  destruct m as [|m]; [reflexivity|]. cbn [drive].
  now rewrite predict_my_generator_restart.
Qed.
End Restart.

(** X8.  The generator is cyclic.  A consumer that pulls [m] batches more
    than the [ceil(n / batch_size)] of one pass gets the batches of the pass
    and then the first [m] of them again. *)
Theorem predict_my_generator_cyclic (smiles_list : list string)
    (batch_size m : nat) :
  (0 < batch_size)%nat ->
  Forall (fun smiles => smiles <> EmptyString) smiles_list ->
  (m <= (length smiles_list + batch_size - 1) / batch_size)%nat ->
  let group i := map encoded (take batch_size (drop (i * batch_size) smiles_list)) in
  drive (predict_my_generator smiles_list batch_size 350)
    ((length smiles_list + batch_size - 1) / batch_size + m) 0
  = Ok (map group (seq 0 ((length smiles_list + batch_size - 1) / batch_size))
          ++ map group (seq 0 m)).
Proof.
  intros Hbs Hne Hm group.
  rewrite (drive_append smiles_list batch_size Hbs Hne) by lia.
  rewrite Nat.add_0_l. rewrite (drive_restart smiles_list batch_size Hbs).
  rewrite (drive_groups smiles_list batch_size Hbs Hne) by lia.
  reflexivity.
Qed.

Lemma predict_my_generator_cyclic_witness :
  drive (predict_my_generator ["C"; "CC"; "CCO"] 2 350) 3 0
  = Ok [[encoded "C"; encoded "CC"]; [encoded "CCO"]; [encoded "C"; encoded "CC"]].
Proof.
  refine (predict_my_generator_cyclic ["C"; "CC"; "CCO"] 2 1 ltac:(lia) _ _).
  - repeat constructor; discriminate.
  - vm_compute. lia.
Defined.

(** ** More on [calculate_frechet_distance] *)

Lemma calculate_frechet_distance_log (sqrtm : matrix -> result array2)
    (mu1 mu2 : vector) (sigma1 sigma2 : matrix) (eps : float) :
  length mu1 = length mu2 -> shape sigma1 = shape sigma2 ->
  snd (calculate_frechet_distance sqrtm mu1 sigma1 mu2 sigma2 eps [])
  = snd (covmean_of sqrtm sigma1 sigma2 eps [EvSub mu1 mu2]).
Proof.
  intros Hmu Hsigma.
  rewrite (calculate_frechet_distance_run sqrtm mu1 mu2 sigma1 sigma2 eps []
             Hmu Hsigma).
  simpl app.
  now destruct (covmean_of sqrtm sigma1 sigma2 eps [EvSub mu1 mu2])
    as [[covmean| |] log'].
Qed.

(** X9.  [eps] is used on the singular path only.  When the first square
    root is finite, the call takes one product and one square root, warns
    about nothing, and its outcome is the same for every [eps]. *)
Theorem eps_unused_when_finite (sqrtm : matrix -> result array2)
    (mu1 mu2 : vector) (sigma1 sigma2 : matrix) (P : matrix) (R1 : array2) :
  length mu1 = length mu2 -> shape sigma1 = shape sigma2 ->
  mdot sigma1 sigma2 = Ok P -> sqrtm P = Ok R1 -> isfinite_all R1 = true ->
  forall eps : float,
    calculate_frechet_distance sqrtm mu1 sigma1 mu2 sigma2 eps []
    = (c ← real_part R1; Ok (distance_value mu1 sigma1 mu2 sigma2 c),
       [EvSub mu1 mu2; EvDot sigma1 sigma2; EvSqrtm P]).
Proof.
  intros Hmu Hsigma HP HR1 Hfin eps.
  rewrite (calculate_frechet_distance_run sqrtm mu1 mu2 sigma1 sigma2 eps []
             Hmu Hsigma).
  now rewrite (covmean_of_finite sqrtm sigma1 sigma2 eps _ P R1 HP HR1 Hfin).
Qed.

Lemma eps_unused_when_finite_witness :
  calculate_frechet_distance sqrtm_triangular
    mu_zero (sigma_diag 4) mu_zero (eye 3) 1 []
  = calculate_frechet_distance sqrtm_triangular
      mu_zero (sigma_diag 4) mu_zero (eye 3) eps_default [].
Proof.
  rewrite !(eps_unused_when_finite sqrtm_triangular mu_zero mu_zero
              (sigma_diag 4) (eye 3) (sigma_diag 4)
              (RealArray (sigma_diag 2)) eq_refl eq_refl eq_refl eq_refl eq_refl).
  reflexivity.
Defined.

(** X10.  Covariance matrices of one shape that is not square pass both
    assertions and fail in the product of line 68: the call raises the
    [ValueError] of [dot] after the mean difference, and [sqrtm] is never
    called. *)
Theorem non_square_covariances_raise (sqrtm : matrix -> result array2)
    (mu1 mu2 : vector) (sigma1 sigma2 : matrix) (eps : float) :
  length mu1 = length mu2 -> shape sigma1 = shape sigma2 ->
  fst (shape sigma1) <> snd (shape sigma1) ->
  calculate_frechet_distance sqrtm mu1 sigma1 mu2 sigma2 eps []
  = (Raise (ValueError "shapes not aligned" None),
     [EvSub mu1 mu2; EvDot sigma1 sigma2]).
Proof.
  intros Hmu Hsigma Hns.
  rewrite (calculate_frechet_distance_run sqrtm mu1 mu2 sigma1 sigma2 eps []
             Hmu Hsigma).
  unfold covmean_of. unfold_M. unfold mdot. rewrite <- Hsigma.
  destruct (Nat.eqb_spec (snd (shape sigma1)) (fst (shape sigma1))) as [E|_];
    [congruence | reflexivity].
Qed.

Lemma non_square_covariances_raise_witness :
  calculate_frechet_distance (fun _ => OutOfFuel)
    [0; 0]%float (NdArray (2, 3)%nat [[1; 0; 0]; [0; 1; 0]]%float)
    [0; 0]%float (NdArray (2, 3)%nat [[1; 0; 0]; [0; 1; 0]]%float)
    eps_default []
  = (Raise (ValueError "shapes not aligned" None),
     [EvSub [0; 0]%float [0; 0]%float;
      EvDot (NdArray (2, 3)%nat [[1; 0; 0]; [0; 1; 0]]%float)
        (NdArray (2, 3)%nat [[1; 0; 0]; [0; 1; 0]]%float)]).
Proof.
  apply non_square_covariances_raise; [reflexivity | reflexivity |].
  simpl. lia.
Defined.

(** X11.  The warning is emitted exactly on the singular path: it is in the
    log if and only if both assertions hold, the product of line 68 exists,
    and its square root exists and has a non-finite entry. *)
Theorem warning_iff_singular (sqrtm : matrix -> result array2)
    (mu1 mu2 : vector) (sigma1 sigma2 : matrix) (eps : float) :
  In (EvWarn singular_msg eps)
    (snd (calculate_frechet_distance sqrtm mu1 sigma1 mu2 sigma2 eps []))
  <-> (length mu1 = length mu2 /\ shape sigma1 = shape sigma2
       /\ exists P R1, mdot sigma1 sigma2 = Ok P /\ sqrtm P = Ok R1
                       /\ isfinite_all R1 = false).
Proof.
  split.
  - intros Hin.
    destruct (decide (length mu1 = length mu2)) as [Hmu|Hmu].
    2:{ destruct (shape_mismatch sqrtm mu1 mu2 sigma1 sigma2 eps (or_introl Hmu))
          as (msg & E). rewrite E in Hin. destruct Hin. }
    destruct (decide (shape sigma1 = shape sigma2)) as [Hsigma|Hsigma].
    2:{ destruct (shape_mismatch sqrtm mu1 mu2 sigma1 sigma2 eps (or_intror Hsigma))
          as (msg & E). rewrite E in Hin. destruct Hin. }
    split; [exact Hmu|]. split; [exact Hsigma|].
    rewrite (calculate_frechet_distance_log sqrtm mu1 mu2 sigma1 sigma2 eps
               Hmu Hsigma) in Hin.
    destruct (mdot sigma1 sigma2) as [P| |] eqn:HP.
    + destruct (sqrtm P) as [R1| |] eqn:HR1.
      * destruct (isfinite_all R1) eqn:Hfin.
        -- rewrite (covmean_of_finite sqrtm sigma1 sigma2 eps _ P R1 HP HR1 Hfin)
             in Hin.
           simpl in Hin. intuition discriminate.
        -- eauto.
      * unfold covmean_of in Hin. unfold_M. rewrite HP, HR1 in Hin.
        simpl in Hin. intuition discriminate.
      * unfold covmean_of in Hin. unfold_M. rewrite HP, HR1 in Hin.
        simpl in Hin. intuition discriminate.
    + unfold covmean_of in Hin. unfold_M. rewrite HP in Hin.
      simpl in Hin. intuition discriminate.
    + unfold covmean_of in Hin. unfold_M. rewrite HP in Hin.
      simpl in Hin. intuition discriminate.
  - intros (Hmu & Hsigma & P & R1 & HP & HR1 & Hfin).
    rewrite (calculate_frechet_distance_log sqrtm mu1 mu2 sigma1 sigma2 eps
               Hmu Hsigma).
    destruct (regularized_shapes sigma1 sigma2 eps P Hsigma HP)
      as (S1 & S2 & P2 & HS1 & HS2 & HP2).
    rewrite (covmean_of_regularized sqrtm sigma1 sigma2 eps _ P S1 S2 P2 R1
               HP HR1 Hfin HS1 HS2 HP2).
    simpl. tauto.
Qed.

(** X12.  On square covariance matrices of one shape and mean vectors of
    one length, the call can only fail through [sqrtm]: when every square
    root [sqrtm] hands back is a real array, the call returns a value,
    with or without regularisation. *)
Theorem real_roots_return (sqrtm : matrix -> result array2)
    (mu1 mu2 : vector) (sigma1 sigma2 : matrix) (eps : float) :
  (forall a, exists m, sqrtm a = Ok (RealArray m)) ->
  length mu1 = length mu2 -> shape sigma1 = shape sigma2 ->
  fst (shape sigma1) = snd (shape sigma1) ->
  exists x log,
    calculate_frechet_distance sqrtm mu1 sigma1 mu2 sigma2 eps [] = (Ok x, log).
Proof.
  intros Hreal Hmu Hsigma Hsq.
  assert (HP : exists P, mdot sigma1 sigma2 = Ok P).
  { unfold mdot. rewrite <- Hsigma, <- Hsq, Nat.eqb_refl. eauto. }
  destruct HP as [P HP]. destruct (Hreal P) as [m Hm].
  rewrite (calculate_frechet_distance_run sqrtm mu1 mu2 sigma1 sigma2 eps []
             Hmu Hsigma).
  destruct (isfinite_all (RealArray m)) eqn:Hfin.
  - rewrite (covmean_of_finite sqrtm sigma1 sigma2 eps _ P _ HP Hm Hfin).
    simpl. eauto.
  - destruct (regularized_shapes sigma1 sigma2 eps P Hsigma HP)
      as (S1 & S2 & P2 & HS1 & HS2 & HP2).
    rewrite (covmean_of_regularized sqrtm sigma1 sigma2 eps _ P S1 S2 P2 _
               HP Hm Hfin HS1 HS2 HP2).
    destruct (Hreal P2) as [m2 ->]. simpl. eauto.
Qed.

Lemma real_roots_return_witness :
  exists x log,
    calculate_frechet_distance sqrtm_cellwise
      mu_zero (sigma_diag 4) mu_zero (eye 3) eps_default [] = (Ok x, log).
Proof.
  apply real_roots_return; try reflexivity.
  intros a. eexists. reflexivity.
Defined.

(** ** The sampling script *)

Section GenerationFacts.
Variable sample : list string -> nat -> result (list string).

Lemma sampling_loop_spec (smiles_list : list string) :
  forall (i : nat) (R outputs R' outputs' : list (list string)),
    sampling_loop sample smiles_list i R outputs = Ok (R', outputs') ->
    length R' = length R
    /\ (forall k, (k < i \/ i + length smiles_list <= k)%nat -> R' !! k = R !! k)
    /\ exists news,
         outputs' = outputs ++ news
         /\ length news = length smiles_list
         /\ forall k smiles,
              smiles_list !! k = Some smiles ->
              exists row sampled,
                R !! (i + k)%nat = Some row
                /\ R' !! (i + k)%nat = Some (row ++ [smiles])
                /\ sample (row ++ [smiles]) N_SAMPLED = Ok sampled
                /\ news !! k = Some sampled.
Proof.
  induction smiles_list as [|smiles rest IH]; intros i R outputs R' outputs' Hrun.
  - injection Hrun as <- <-. split; [reflexivity|]. split; [reflexivity|].
    exists []. rewrite app_nil_r. split; [reflexivity|]. split; [reflexivity|].
    intros k smiles Hk. discriminate Hk.
  - cbn [sampling_loop] in Hrun.
    destruct (R !! i) as [row|] eqn:Hrow; [|discriminate Hrun].
    destruct (sample (row ++ [smiles]) N_SAMPLED) as [sampled| |] eqn:Hs;
      try discriminate Hrun.
    apply IH in Hrun as (Hlen & Hframe & news & -> & Hnews & Hcalls).
    rewrite length_insert in Hlen. split; [exact Hlen|]. split.
    + intros k Hk. simpl in Hk. rewrite Hframe by lia.
      apply list_lookup_insert_ne. lia.
    + exists (sampled :: news). rewrite <- app_assoc. split; [reflexivity|].
      split; [simpl; now rewrite Hnews|].
      intros k smiles' Hk. destruct k as [|k].
      * injection Hk as <-. rewrite Nat.add_0_r. exists row, sampled.
        split; [exact Hrow|]. split; [|split; [exact Hs | reflexivity]].
        rewrite Hframe by lia. apply list_lookup_insert_eq.
        now apply lookup_lt_Some in Hrow.
      * destruct (Hcalls k smiles' Hk) as (row' & sampled' & H1 & H2 & H3 & H4).
        replace (i + S k)%nat with (S i + k)%nat by lia.
        exists row', sampled'.
        rewrite list_lookup_insert_ne in H1 by lia. auto.
Qed.
Lemma sampling_loop_raises (smiles_list : list string) :
  forall (i : nat) (R outputs : list (list string)) (e : exn),
    sampling_loop sample smiles_list i R outputs = Raise e ->
    (e = IndexError /\ (length R < i + length smiles_list)%nat)
    \/ exists k smiles row,
         smiles_list !! k = Some smiles
         /\ R !! (i + k)%nat = Some row
         /\ sample (row ++ [smiles]) N_SAMPLED = Raise e.
Proof.
  induction smiles_list as [|smiles rest IH]; intros i R outputs e Hrun.
  - discriminate Hrun.
  - cbn [sampling_loop] in Hrun.
    destruct (R !! i) as [row|] eqn:Hrow.
    + destruct (sample (row ++ [smiles]) N_SAMPLED) as [sampled|e'|] eqn:Hs.
      * apply IH in Hrun as [[-> Hlen]|(k & smiles' & row' & H1 & H2 & H3)].
        -- left. rewrite length_insert in Hlen. simpl. split; [reflexivity|lia].
        -- right. exists (S k), smiles', row'.
           rewrite list_lookup_insert_ne in H2 by lia.
           replace (i + S k)%nat with (S i + k)%nat by lia. auto.
      * injection Hrun as ->. right. exists 0%nat, smiles, row.
        rewrite Nat.add_0_r. auto.
      * discriminate Hrun.
    + injection Hrun as <-. left. apply lookup_ge_None in Hrow.
      simpl. split; [reflexivity|lia].
Qed.

Lemma sampling_loop_returns (smiles_list : list string) :
  forall (i : nat) (R outputs : list (list string)),
    (forall similar_smiles, is_ok (sample similar_smiles N_SAMPLED) = true) ->
    (i + length smiles_list <= length R)%nat ->
    exists state, sampling_loop sample smiles_list i R outputs = Ok state.
Proof.
  induction smiles_list as [|smiles rest IH]; intros i R outputs Hsample Hlen.
  - eexists. reflexivity.
  - cbn [sampling_loop]. simpl in Hlen.
    destruct (lookup_lt_is_Some_2 R i ltac:(lia)) as [row ->].
    pose proof (Hsample (row ++ [smiles])) as Hrow.
    destruct (sample (row ++ [smiles]) N_SAMPLED) as [sampled| |];
      try discriminate Hrow.
    apply IH; [assumption|]. rewrite length_insert. lia.
Qed.

Lemma generation_rows_aligned_aux (header : list string)
    (smiles_list : list string) (R rows : list (list string)) :
  generation sample header smiles_list R = Ok rows ->
  forall k smiles, smiles_list !! k = Some smiles -> exists row, R !! k = Some row.
Proof.
  unfold generation. intros Hrun k smiles Hk.
  destruct (sampling_loop sample smiles_list 0 R []) as [[R' outputs]| |] eqn:Hloop;
    try discriminate Hrun.
  destruct (sampling_loop_spec smiles_list 0 R [] R' outputs Hloop)
    as (_ & _ & news & _ & _ & Hcalls).
  destruct (Hcalls k smiles Hk) as (row & _ & Hrow & _). eauto.
Qed.
End GenerationFacts.

(** X13.  The rows the script writes are aligned with its input: one row
    per input molecule after the header, row [k] being what the sampler
    returned for row [k] of the similarity file with molecule [k] appended
    last.  So the assertion of line 44 can never fail. *)
Theorem generation_rows_aligned
    (sample : list string -> nat -> result (list string))
    (header : list string) (smiles_list : list string)
    (R rows : list (list string)) :
  generation sample header smiles_list R = Ok rows ->
  exists outputs,
    rows = header :: outputs
    /\ length outputs = length smiles_list
    /\ forall k smiles,
         smiles_list !! k = Some smiles ->
         exists row sampled,
           R !! k = Some row
           /\ sample (row ++ [smiles]) N_SAMPLED = Ok sampled
           /\ outputs !! k = Some sampled.
Proof.
  unfold generation. intros Hrun.
  destruct (sampling_loop sample smiles_list 0 R []) as [[R' outputs]| |] eqn:Hloop;
    try discriminate Hrun.
  destruct (sampling_loop_spec sample smiles_list 0 R [] R' outputs Hloop)
    as (_ & _ & news & -> & Hlen & Hcalls).
  simpl in Hrun. rewrite Hlen, Nat.eqb_refl in Hrun. injection Hrun as <-.
  exists news. split; [reflexivity|]. split; [exact Hlen|].
  intros k smiles Hk.
  destruct (Hcalls k smiles Hk) as (row & sampled & H1 & _ & H3 & H4). eauto.
Qed.

Lemma generation_rows_aligned_witness :
  exists outputs,
    [["mol-0"]; replicate 100 "CCO"; replicate 100 "CO"] = ["mol-0"] :: outputs
    /\ length outputs = length ["CCO"; "CO"]
    /\ forall k smiles,
         ["CCO"; "CO"] !! k = Some smiles ->
         exists row sampled,
           [["CCN"; "CCC"]; []; ["N"]] !! k = Some row
           /\ sample_last (row ++ [smiles]) N_SAMPLED = Ok sampled
           /\ outputs !! k = Some sampled.
Proof.
  apply (generation_rows_aligned sample_last ["mol-0"] ["CCO"; "CO"]
           [["CCN"; "CCC"]; []; ["N"]]).
  reflexivity.
Defined.

(** X14.  Every exception of lines 32-44 is the one of building the
    sampler, or the [IndexError] of a similarity file with fewer rows than
    the input has molecules, or the exception that the sampler raised on
    row [k] with molecule [k] appended; the assertion of line 44 is never
    the one that fails. *)
Theorem generation_exceptions (Sampler : Type) (MollibSampler : result Sampler)
    (sample : Sampler -> list string -> nat -> result (list string))
    (header : list string) (smiles_list : list string)
    (R : list (list string)) (e : exn) :
  generation_main Sampler MollibSampler sample header smiles_list R = Raise e ->
  MollibSampler = Raise e
  \/ exists sampler,
       MollibSampler = Ok sampler
       /\ ((e = IndexError /\ (length R < length smiles_list)%nat)
           \/ exists k smiles row,
                smiles_list !! k = Some smiles
                /\ R !! k = Some row
                /\ sample sampler (row ++ [smiles]) N_SAMPLED = Raise e).
Proof.
  unfold generation_main. intros Hrun.
  destruct MollibSampler as [sampler|e'|];
    [|left; injection Hrun as ->; reflexivity|discriminate Hrun].
  right. exists sampler. split; [reflexivity|].
  change (generation (sample sampler) header smiles_list R = Raise e) in Hrun.
  unfold generation in Hrun.
  destruct (sampling_loop (sample sampler) smiles_list 0 R [])
    as [[R' outputs]|e'|] eqn:Hloop; try discriminate Hrun.
  - destruct (sampling_loop_spec (sample sampler) smiles_list 0 R [] R' outputs Hloop)
      as (_ & _ & news & -> & Hlen & _).
    simpl in Hrun. rewrite Hlen, Nat.eqb_refl in Hrun. discriminate Hrun.
  - injection Hrun as ->.
    exact (sampling_loop_raises (sample sampler) smiles_list 0 R [] e Hloop).
Qed.

Lemma generation_exceptions_witness :
  generation_main unit (Ok tt) (fun _ => sample_last) ["mol-0"] ["CCO"; "CO"]
    [["CCN"]] = Raise IndexError
  /\ (Ok tt = Raise IndexError
      \/ exists sampler : unit,
           Ok tt = Ok sampler
           /\ ((IndexError = IndexError
                /\ (length [["CCN"]] < length ["CCO"; "CO"])%nat)
               \/ exists k smiles row,
                    ["CCO"; "CO"] !! k = Some smiles
                    /\ [["CCN"]] !! k = Some row
                    /\ sample_last (row ++ [smiles]) N_SAMPLED = Raise IndexError)).
Proof.
  split; [reflexivity|].
  apply (generation_exceptions unit (Ok tt) (fun _ => sample_last) ["mol-0"]
           ["CCO"; "CO"] [["CCN"]]).
  reflexivity.
Defined.

(** X15.  With a sampler that returns on every input, the script writes
    its rows exactly when the similarity file has at least as many rows as
    the input has molecules; with fewer rows it writes nothing, whatever
    the sampler does. *)
Theorem generation_needs_enough_rows
    (sample : list string -> nat -> result (list string))
    (header : list string) (smiles_list : list string)
    (R : list (list string)) :
  ((length R < length smiles_list)%nat ->
   is_ok (generation sample header smiles_list R) = false)
  /\ ((forall similar_smiles, is_ok (sample similar_smiles N_SAMPLED) = true) ->
      (length smiles_list <= length R)%nat ->
      is_ok (generation sample header smiles_list R) = true).
Proof.
  split.
  - intros Hshort.
    destruct (generation sample header smiles_list R) as [rows| |] eqn:Hrun;
      try reflexivity.
    pose proof (generation_rows_aligned_aux sample header smiles_list R rows Hrun) as Hrows. clear Hrun. rename Hrows into Hrun.
    destruct (lookup_lt_is_Some_2 smiles_list (length R) Hshort) as [smiles Hk].
    destruct (Hrun _ _ Hk) as (row & Hrow).
    apply lookup_lt_Some in Hrow. lia.
  - intros Hsample Hlen. unfold generation.
    destruct (sampling_loop_returns sample smiles_list 0 R [] Hsample Hlen)
      as [[R' outputs] Hloop].
    rewrite Hloop.
    destruct (sampling_loop_spec sample smiles_list 0 R [] R' outputs Hloop)
      as (_ & _ & news & -> & Hnews & _).
    simpl. rewrite Hnews, Nat.eqb_refl. reflexivity.
Qed.

Lemma generation_needs_enough_rows_witness :
  is_ok (generation sample_last ["mol-0"] ["CCO"; "CO"] [["CCN"]]) = false
  /\ is_ok (generation sample_last ["mol-0"] ["CCO"; "CO"] [["CCN"]; []; ["N"]]) = true.
Proof.
  split.
  - apply (proj1 (generation_needs_enough_rows sample_last ["mol-0"]
                    ["CCO"; "CO"] [["CCN"]])).
    simpl. lia.
  - apply (proj2 (generation_needs_enough_rows sample_last ["mol-0"]
                    ["CCO"; "CO"] [["CCN"]; []; ["N"]])).
    + intros similar_smiles. reflexivity.
    + simpl. lia.
Defined.

(** The loop changes the rows of the similarity file in place: when
    it ends, each of the first rows has its molecule appended last and the
    rows past the input are as they were. *)
Theorem sampling_loop_appends_in_place
    (sample : list string -> nat -> result (list string))
    (smiles_list : list string) (R R' outputs : list (list string)) :
  sampling_loop sample smiles_list 0 R [] = Ok (R', outputs) ->
  R' = zip_with (fun row smiles => row ++ [smiles])
         (take (length smiles_list) R) smiles_list
       ++ drop (length smiles_list) R.
Proof.
  intros Hloop.
  destruct (sampling_loop_spec sample smiles_list 0 R [] R' outputs Hloop)
    as (Hlen & Hframe & news & _ & _ & Hcalls).
  assert (Hn : (length smiles_list <= length R)%nat).
  { destruct smiles_list as [|s0 rest] eqn:E; [simpl; lia|]. rewrite <- E in *.
    assert (Hlast : is_Some (smiles_list !! (length smiles_list - 1)%nat)).
    { apply lookup_lt_is_Some_2. rewrite E. simpl. lia. }
    destruct Hlast as [smiles Hk].
    destruct (Hcalls _ _ Hk) as (row & _ & Hrow & _).
    apply lookup_lt_Some in Hrow. rewrite E in *. simpl in *. lia. }
  apply list_eq. intros k.
  destruct (decide (k < length smiles_list)%nat) as [Hk|Hk].
  - destruct (lookup_lt_is_Some_2 smiles_list k Hk) as [smiles Hs].
    destruct (Hcalls _ _ Hs) as (row & _ & Hrow & Hrow' & _). simpl in Hrow, Hrow'.
    rewrite Hrow'. symmetry.
    rewrite lookup_app_l by (rewrite length_zip_with, length_take; lia).
    rewrite lookup_zip_with, lookup_take_lt, Hrow by lia. simpl.
    rewrite Hs. reflexivity.
  - rewrite Hframe by lia.
    rewrite lookup_app_r by (rewrite length_zip_with, length_take; lia).
    rewrite length_zip_with, length_take, lookup_drop.
    f_equal. lia.
Qed.

Lemma sampling_loop_appends_in_place_witness :
  [["CCN"; "CCC"; "CCO"]; ["CO"]; ["N"]]
  = zip_with (fun row smiles => row ++ [smiles])
      (take (length ["CCO"; "CO"]) [["CCN"; "CCC"]; []; ["N"]]) ["CCO"; "CO"]
    ++ drop (length ["CCO"; "CO"]) [["CCN"; "CCC"]; []; ["N"]].
Proof.
  apply (sampling_loop_appends_in_place sample_last ["CCO"; "CO"]
           [["CCN"; "CCC"]; []; ["N"]] _
           [replicate 100 "CCO"; replicate 100 "CO"]).
  reflexivity.
Defined.
